(** * gpt_todo: the task store of [src/App.jsx]

    The React component [App] keeps a list of task objects in the state
    variable [todos], updates it through [addTodo], [toggleTodo],
    [deleteTodo] and [clearCompleted], derives [filteredTodos] from it and
    mirrors it into [localStorage] under the key [modern_todos].

    Embedding:
    - a JavaScript string is the list of its UTF-16 code units ([list N]);
    - a task object [{id, text, completed, priority, createdAt}] is the
      record [Todo.t]; [id] is the integer that [Date.now()] returned;
    - a state updater [setTodos (prev => e)] is the function [prev => e];
    - [localStorage] is a finite map from keys to stored strings;
    - [JSON.parse] either returns a value or throws: type [completion]. *)

From Stdlib Require Import ZArith NArith QArith Ascii String Lia.
From Stdlib Require Import DecimalFacts DecimalPos DecimalN.
From stdpp Require Import base list gmap sorting.

Set Warnings "-register-all,-clear-no-such-hyp".

Local Open Scope Z_scope.

(** ** JavaScript strings *)

Definition jsstring := list N.

(** The code units of an ASCII literal. *)
Definition js (s : string) : jsstring :=
  List.map N_of_ascii (list_ascii_of_string s).

(** ** The task object *)

Module Todo.

Record t : Type := mk {
  id : Z;
  text : jsstring;
  completed : bool;
  priority : jsstring;
  createdAt : jsstring
}.

(** [{ ...t, completed: c }] *)
Definition with_completed (c : bool) (x : t) : t :=
  {| id := id x; text := text x; completed := c;
     priority := priority x; createdAt := createdAt x |}.

End Todo.

(** ** [String.prototype.trim]

    [trim] strips the code units that ECMAScript calls WhiteSpace or
    LineTerminator from both ends. *)

Definition is_white_space (c : N) : bool :=
  ((c =? 0x09) || (c =? 0x0A) || (c =? 0x0B) || (c =? 0x0C) || (c =? 0x0D)
   || (c =? 0x20) || (c =? 0xA0) || (c =? 0x1680)
   || ((0x2000 <=? c) && (c <=? 0x200A))
   || (c =? 0x2028) || (c =? 0x2029) || (c =? 0x202F) || (c =? 0x205F)
   || (c =? 0x3000) || (c =? 0xFEFF))%N.

Fixpoint trimStart (s : jsstring) : jsstring :=
  match s with
  | c :: r => if is_white_space c then trimStart r else s
  | [] => []
  end.

Definition trimEnd (s : jsstring) : jsstring := rev (trimStart (rev s)).

Definition trim (s : jsstring) : jsstring := trimEnd (trimStart s).

(** The empty string is the only falsy string. *)
Definition truthy (s : jsstring) : bool :=
  match s with [] => false | _ :: _ => true end.

(** ** The operations of [App] *)

(** [addTodo(text, priority)]; [now] is the value of [Date.now()] and [iso]
    the value of [new Date().toISOString()] at the call. *)
Definition addTodo (now : Z) (iso : jsstring) (text priority : jsstring)
    (prev : list Todo.t) : list Todo.t :=
  if negb (truthy (trim text)) then prev
  else
    let newTodo :=
      {| Todo.id := now; Todo.text := text; Todo.completed := false;
         Todo.priority := priority; Todo.createdAt := iso |} in
    newTodo :: prev.

Definition toggleTodo (id : Z) (prev : list Todo.t) : list Todo.t :=
  (λ t, if Todo.id t =? id
        then Todo.with_completed (negb (Todo.completed t)) t
        else t) <$> prev.

Definition deleteTodo (id : Z) (prev : list Todo.t) : list Todo.t :=
  filter (λ t, negb (Todo.id t =? id)) prev.

Definition clearCompleted (prev : list Todo.t) : list Todo.t :=
  filter (λ t, negb (Todo.completed t)) prev.

(** Strict equality [a === b] of two strings. *)
Fixpoint jsstring_eqb (a b : jsstring) : bool :=
  match a, b with
  | [], [] => true
  | x :: a', y :: b' => (x =? y)%N && jsstring_eqb a' b'
  | _, _ => false
  end.

(** [filteredTodos], the memoised view of [todos] under [filter]. *)
Definition filteredTodos (todos : list Todo.t) (filter_ : jsstring)
    : list Todo.t :=
  if jsstring_eqb filter_ (js "active")
  then filter (λ t, negb (Todo.completed t)) todos
  else if jsstring_eqb filter_ (js "completed")
  then filter (λ t, Todo.completed t) todos
  else todos.

(** ** Runs of the store *)

Inductive op : Type :=
| Add (now : Z) (iso text priority : jsstring)
| Toggle (id : Z)
| Delete (id : Z)
| ClearCompleted.

Definition step (prev : list Todo.t) (o : op) : list Todo.t :=
  match o with
  | Add now iso text priority => addTodo now iso text priority prev
  | Toggle id => toggleTodo id prev
  | Delete id => deleteTodo id prev
  | ClearCompleted => clearCompleted prev
  end.

(** The collection after a sequence of operations on the empty one. *)
Definition run (ops : list op) : list Todo.t := foldl step [] ops.

(** Every accepted [Add] of the run reads a clock value that is not the id
    of a task present at that moment. *)
Fixpoint fresh_clock (prev : list Todo.t) (ops : list op) : Prop :=
  match ops with
  | [] => True
  | o :: ops' =>
      match o with
      | Add now _ text _ =>
          truthy (trim text) = true → now ∉ (Todo.id <$> prev)
      | _ => True
      end ∧ fresh_clock (step prev o) ops'
  end.

(** ** JSON values and completions *)

Inductive json : Type :=
| JNull
| JBool (b : bool)
| JNum (q : Q)
| JStr (s : jsstring)
| JArr (vs : list json)
| JObj (ms : list (jsstring * json)).

Inductive exn : Type := SyntaxError.

(** The outcome of evaluating a JavaScript expression.  [OutOfFuel] is an
    artefact of the recursion on fuel below; [JSON_parse_total] shows that
    [JSON_parse] never produces it. *)
Inductive completion (A : Type) : Type :=
| Returns (a : A)
| Throws (e : exn)
| OutOfFuel.
Arguments Returns {A} a.
Arguments Throws {A} e.
Arguments OutOfFuel {A}.

#[global] Instance completion_ret : MRet completion := λ A a, Returns a.
#[global] Instance completion_bind : MBind completion := λ A B f m,
  match m with
  | Returns a => f a
  | Throws e => Throws e
  | OutOfFuel => OutOfFuel
  end.

(** ** [JSON.parse]

    A recursive-descent reading of the JSON grammar of ECMA-404 on code
    units.  Numbers are kept as exact rationals; an object keeps its members
    in the order of their first occurrence and a repeated key overwrites the
    earlier value. *)

Definition is_json_ws (c : N) : bool :=
  ((c =? 0x20) || (c =? 0x09) || (c =? 0x0A) || (c =? 0x0D))%N.

Fixpoint skip_ws (s : jsstring) : jsstring :=
  match s with
  | c :: r => if is_json_ws c then skip_ws r else s
  | [] => []
  end.

Definition is_digit (c : N) : bool := ((0x30 <=? c) && (c <=? 0x39))%N.

Definition hex_value (c : N) : option N :=
  if ((0x30 <=? c) && (c <=? 0x39))%N then Some (c - 0x30)%N
  else if ((0x41 <=? c) && (c <=? 0x46))%N then Some (c - 0x41 + 10)%N
  else if ((0x61 <=? c) && (c <=? 0x66))%N then Some (c - 0x61 + 10)%N
  else None.

Definition hex4_value (h1 h2 h3 h4 : N) : option N :=
  a ← hex_value h1; b ← hex_value h2; c ← hex_value h3; d ← hex_value h4;
  Some (((a * 16 + b) * 16 + c) * 16 + d)%N.

(** The character denoted by [\e] for a single-character escape. *)
Definition unescape (e : N) : option N :=
  if (e =? 0x22)%N then Some 0x22%N
  else if (e =? 0x5C)%N then Some 0x5C%N
  else if (e =? 0x2F)%N then Some 0x2F%N
  else if (e =? 0x62)%N then Some 0x08%N
  else if (e =? 0x66)%N then Some 0x0C%N
  else if (e =? 0x6E)%N then Some 0x0A%N
  else if (e =? 0x72)%N then Some 0x0D%N
  else if (e =? 0x74)%N then Some 0x09%N
  else None.

Definition cons_char (c : N) (k : completion (jsstring * jsstring))
    : completion (jsstring * jsstring) :=
  '(cs, r) ← k; mret (c :: cs, r).

(** The characters of a string literal after its opening quote, up to and
    including the closing quote. *)
Fixpoint parse_chars (s : jsstring) : completion (jsstring * jsstring) :=
  match s with
  | [] => Throws SyntaxError
  | c :: r =>
      if (c =? 0x22)%N then Returns ([], r)
      else if (c =? 0x5C)%N then
        match r with
        | [] => Throws SyntaxError
        | e :: r1 =>
            if (e =? 0x75)%N then
              match r1 with
              | h1 :: h2 :: h3 :: h4 :: r2 =>
                  match hex4_value h1 h2 h3 h4 with
                  | Some u => cons_char u (parse_chars r2)
                  | None => Throws SyntaxError
                  end
              | _ => Throws SyntaxError
              end
            else
              match unescape e with
              | Some u => cons_char u (parse_chars r1)
              | None => Throws SyntaxError
              end
        end
      else if (c <? 0x20)%N then Throws SyntaxError
      else cons_char c (parse_chars r)
  end.

Fixpoint take_digits (s : jsstring) : jsstring * jsstring :=
  match s with
  | c :: r =>
      if is_digit c then let '(ds, r') := take_digits r in (c :: ds, r')
      else ([], s)
  | [] => ([], [])
  end.

Definition digit_cons (c : N) (u : Decimal.uint) : Decimal.uint :=
  match (c - 0x30)%N with
  | 0%N => Decimal.D0 u | 1%N => Decimal.D1 u | 2%N => Decimal.D2 u
  | 3%N => Decimal.D3 u | 4%N => Decimal.D4 u | 5%N => Decimal.D5 u
  | 6%N => Decimal.D6 u | 7%N => Decimal.D7 u | 8%N => Decimal.D8 u
  | _ => Decimal.D9 u
  end.

Definition uint_of_digits (ds : jsstring) : Decimal.uint :=
  foldr digit_cons Decimal.Nil ds.

Definition digits_value (ds : jsstring) : Z :=
  Z.of_N (N.of_uint (uint_of_digits ds)).

(** The optional fraction [. digits]. *)
Definition parse_fraction (s : jsstring) : completion (jsstring * jsstring) :=
  match s with
  | c :: r =>
      if (c =? 0x2E)%N then
        match take_digits r with
        | ([], _) => Throws SyntaxError
        | (ds, r') => Returns (ds, r')
        end
      else Returns ([], s)
  | [] => Returns ([], s)
  end.

(** The optional exponent [e|E] [+|-]? digits. *)
Definition parse_exponent (s : jsstring) : completion (Z * jsstring) :=
  match s with
  | c :: r =>
      if ((c =? 0x65) || (c =? 0x45))%N then
        let '(neg, r1) :=
          match r with
          | sg :: r0 =>
              if (sg =? 0x2D)%N then (true, r0)
              else if (sg =? 0x2B)%N then (false, r0)
              else (false, r)
          | [] => (false, r)
          end in
        match take_digits r1 with
        | ([], _) => Throws SyntaxError
        | (ds, r') =>
            Returns (if neg then - digits_value ds else digits_value ds, r')
        end
      else Returns (0, s)
  | [] => Returns (0, s)
  end.

(** The value [mant * 10 ^ scale]. *)
Definition decimal_value (mant scale : Z) : Q :=
  if 0 <=? scale then inject_Z (mant * 10 ^ scale)
  else Qred (Qmake mant (Z.to_pos (10 ^ (- scale)))).

(** The optional minus sign. *)
Definition parse_sign (s : jsstring) : bool * jsstring :=
  match s with
  | c :: r => if (c =? 0x2D)%N then (true, r) else (false, s)
  | [] => (false, s)
  end.

(** The integer part: a single [0], or a digit from 1 to 9 and the digits
    after it. *)
Definition parse_int_digits (s : jsstring) : completion (jsstring * jsstring) :=
  match s with
  | d :: r =>
      if (d =? 0x30)%N then Returns ([d], r)
      else if is_digit d then Returns (take_digits s)
      else Throws SyntaxError
  | [] => Throws SyntaxError
  end.

Definition parse_number (s : jsstring) : completion (Q * jsstring) :=
  let '(neg, s1) := parse_sign s in
  '(ids, r1) ← parse_int_digits s1;
  '(fds, r2) ← parse_fraction r1;
  '(e, r3) ← parse_exponent r2;
  let q := decimal_value (digits_value (ids ++ fds))
                         (e - Z.of_nat (length fds)) in
  mret (if neg then Qopp q else q, r3).

Fixpoint strip_prefix (p s : jsstring) : option jsstring :=
  match p, s with
  | [], _ => Some s
  | a :: p', b :: s' => if (a =? b)%N then strip_prefix p' s' else None
  | _ :: _, [] => None
  end.

Definition parse_literal (s : jsstring) : completion (json * jsstring) :=
  match strip_prefix (js "true") s with
  | Some r => Returns (JBool true, r)
  | None =>
      match strip_prefix (js "false") s with
      | Some r => Returns (JBool false, r)
      | None =>
          match strip_prefix (js "null") s with
          | Some r => Returns (JNull, r)
          | None => Throws SyntaxError
          end
      end
  end.

(** [o[k] = v] on the member list of an object. *)
Fixpoint obj_set (k : jsstring) (v : json) (ms : list (jsstring * json))
    : list (jsstring * json) :=
  match ms with
  | [] => [(k, v)]
  | (k', v') :: ms' =>
      if jsstring_eqb k' k then (k', v) :: ms'
      else (k', v') :: obj_set k v ms'
  end.

Definition obj_of_members (ms : list (jsstring * json))
    : list (jsstring * json) :=
  foldl (λ o kv, obj_set kv.1 kv.2 o) [] ms.

Fixpoint parse_value (fuel : nat) (s : jsstring) {struct fuel}
    : completion (json * jsstring) :=
  match fuel with
  | O => OutOfFuel
  | S fuel' =>
      match skip_ws s with
      | [] => Throws SyntaxError
      | c :: r =>
          if (c =? 0x22)%N then
            '(cs, r') ← parse_chars r; mret (JStr cs, r')
          else if (c =? 0x5B)%N then
            match skip_ws r with
            | c' :: r' =>
                if (c' =? 0x5D)%N then Returns (JArr [], r')
                else '(vs, r2) ← parse_elements fuel' r; mret (JArr vs, r2)
            | [] => Throws SyntaxError
            end
          else if (c =? 0x7B)%N then
            match skip_ws r with
            | c' :: r' =>
                if (c' =? 0x7D)%N then Returns (JObj [], r')
                else '(ms, r2) ← parse_members fuel' r;
                     mret (JObj (obj_of_members ms), r2)
            | [] => Throws SyntaxError
            end
          else if ((c =? 0x2D) || is_digit c)%N then
            '(q, r') ← parse_number (c :: r); mret (JNum q, r')
          else parse_literal (c :: r)
      end
  end

(** [value (, value)* ]] *)
with parse_elements (fuel : nat) (s : jsstring) {struct fuel}
    : completion (list json * jsstring) :=
  match fuel with
  | O => OutOfFuel
  | S fuel' =>
      '(v, r) ← parse_value fuel' s;
      match skip_ws r with
      | c :: r' =>
          if (c =? 0x2C)%N then
            '(vs, r2) ← parse_elements fuel' r'; mret (v :: vs, r2)
          else if (c =? 0x5D)%N then Returns ([v], r')
          else Throws SyntaxError
      | [] => Throws SyntaxError
      end
  end

(** [string : value (, string : value)* }] *)
with parse_members (fuel : nat) (s : jsstring) {struct fuel}
    : completion (list (jsstring * json) * jsstring) :=
  match fuel with
  | O => OutOfFuel
  | S fuel' =>
      match skip_ws s with
      | q :: r0 =>
          if (q =? 0x22)%N then
            '(k, r1) ← parse_chars r0;
            match skip_ws r1 with
            | c :: r2 =>
                if (c =? 0x3A)%N then
                  '(v, r3) ← parse_value fuel' r2;
                  match skip_ws r3 with
                  | c' :: r4 =>
                      if (c' =? 0x2C)%N then
                        '(ms, r5) ← parse_members fuel' r4;
                        mret ((k, v) :: ms, r5)
                      else if (c' =? 0x7D)%N then Returns ([(k, v)], r4)
                      else Throws SyntaxError
                  | [] => Throws SyntaxError
                  end
                else Throws SyntaxError
            | [] => Throws SyntaxError
            end
          else Throws SyntaxError
      | [] => Throws SyntaxError
      end
  end.

(** [JSON.parse(text)]: one value, then only white space. *)
Definition JSON_parse (text : jsstring) : completion json :=
  '(v, r) ← parse_value (2 * length text + 1) text;
  match skip_ws r with
  | [] => Returns v
  | _ :: _ => Throws SyntaxError
  end.

(** ** [JSON.stringify] on the task collection

    [QuoteJSONString] escapes the quote, the backslash, the control
    characters and every surrogate that is not part of a pair; an id is
    printed by [Number::toString], which for a safe integer is its decimal
    expansion. *)

Definition hex_digit (d : N) : N :=
  if (d <? 10)%N then (0x30 + d)%N else (0x61 + (d - 10))%N.

Definition unicode_escape (c : N) : jsstring :=
  [0x5C; 0x75; hex_digit (c / 4096); hex_digit ((c / 256) mod 16);
   hex_digit ((c / 16) mod 16); hex_digit (c mod 16)]%N.

Definition is_high_surrogate (c : N) : bool :=
  ((0xD800 <=? c) && (c <=? 0xDBFF))%N.

Definition is_low_surrogate (c : N) : bool :=
  ((0xDC00 <=? c) && (c <=? 0xDFFF))%N.

(** The text for the code unit [c]; [prev_high] tells whether the unit
    before it is a high surrogate and [r] is what follows it: a high
    surrogate followed by a low one is a pair and is copied. *)
Definition quote_code_unit (prev_high : bool) (c : N) (r : jsstring)
    : jsstring :=
  if (c =? 0x08)%N then [0x5C; 0x62]%N
  else if (c =? 0x09)%N then [0x5C; 0x74]%N
  else if (c =? 0x0A)%N then [0x5C; 0x6E]%N
  else if (c =? 0x0C)%N then [0x5C; 0x66]%N
  else if (c =? 0x0D)%N then [0x5C; 0x72]%N
  else if (c =? 0x22)%N then [0x5C; 0x22]%N
  else if (c =? 0x5C)%N then [0x5C; 0x5C]%N
  else if (c <? 0x20)%N then unicode_escape c
  else if is_high_surrogate c then
    match r with
    | c' :: _ => if is_low_surrogate c' then [c] else unicode_escape c
    | [] => unicode_escape c
    end
  else if is_low_surrogate c then
    if prev_high then [c] else unicode_escape c
  else [c].

Fixpoint quote_chars (prev_high : bool) (s : jsstring) : jsstring :=
  match s with
  | [] => []
  | c :: r =>
      quote_code_unit prev_high c r ++ quote_chars (is_high_surrogate c) r
  end.

Definition quote (s : jsstring) : jsstring :=
  0x22%N :: quote_chars false s ++ [0x22%N].

Fixpoint digits_of_uint (u : Decimal.uint) : jsstring :=
  match u with
  | Decimal.Nil => []
  | Decimal.D0 u' => 0x30%N :: digits_of_uint u'
  | Decimal.D1 u' => 0x31%N :: digits_of_uint u'
  | Decimal.D2 u' => 0x32%N :: digits_of_uint u'
  | Decimal.D3 u' => 0x33%N :: digits_of_uint u'
  | Decimal.D4 u' => 0x34%N :: digits_of_uint u'
  | Decimal.D5 u' => 0x35%N :: digits_of_uint u'
  | Decimal.D6 u' => 0x36%N :: digits_of_uint u'
  | Decimal.D7 u' => 0x37%N :: digits_of_uint u'
  | Decimal.D8 u' => 0x38%N :: digits_of_uint u'
  | Decimal.D9 u' => 0x39%N :: digits_of_uint u'
  end.

Definition number_to_string (z : Z) : jsstring :=
  (if z <? 0 then [0x2D%N] else []) ++ digits_of_uint (N.to_uint (Z.abs_N z)).

Definition boolean_to_string (b : bool) : jsstring :=
  if b then js "true" else js "false".

Definition stringify_todo (t : Todo.t) : jsstring :=
  [0x7B%N]
  ++ quote (js "id") ++ [0x3A%N] ++ number_to_string (Todo.id t) ++ [0x2C%N]
  ++ quote (js "text") ++ [0x3A%N] ++ quote (Todo.text t) ++ [0x2C%N]
  ++ quote (js "completed") ++ [0x3A%N]
  ++ boolean_to_string (Todo.completed t) ++ [0x2C%N]
  ++ quote (js "priority") ++ [0x3A%N] ++ quote (Todo.priority t) ++ [0x2C%N]
  ++ quote (js "createdAt") ++ [0x3A%N] ++ quote (Todo.createdAt t)
  ++ [0x7D%N].

(** The elements of the array, separated by commas. *)
Fixpoint stringify_elements (ts : list Todo.t) : jsstring :=
  match ts with
  | [] => []
  | t :: ts' =>
      stringify_todo t
      ++ match ts' with
         | [] => []
         | _ :: _ => 0x2C%N :: stringify_elements ts'
         end
  end.

(** [JSON.stringify(todos)] *)
Definition JSON_stringify (todos : list Todo.t) : jsstring :=
  0x5B%N :: stringify_elements todos ++ [0x5D%N].

(** The JavaScript value that a task record stands for. *)
Definition json_of_todo (t : Todo.t) : json :=
  JObj [(js "id", JNum (inject_Z (Todo.id t)));
        (js "text", JStr (Todo.text t));
        (js "completed", JBool (Todo.completed t));
        (js "priority", JStr (Todo.priority t));
        (js "createdAt", JStr (Todo.createdAt t))].

Definition json_of_todos (todos : list Todo.t) : json :=
  JArr (json_of_todo <$> todos).

(** Reading a value back as a task record: the inverse of [json_of_todo]. *)
Definition todo_of_json (v : json) : option Todo.t :=
  match v with
  | JObj [(k1, JNum q); (k2, JStr tx); (k3, JBool c); (k4, JStr p);
          (k5, JStr ca)] =>
      if jsstring_eqb k1 (js "id") && jsstring_eqb k2 (js "text")
         && jsstring_eqb k3 (js "completed")
         && jsstring_eqb k4 (js "priority")
         && jsstring_eqb k5 (js "createdAt")
         && (Zpos (Qden q) =? 1)
      then Some (Todo.mk (Qnum q) tx c p ca)
      else None
  | _ => None
  end.

Definition todos_of_json (v : json) : option (list Todo.t) :=
  match v with
  | JArr vs => mapM todo_of_json vs
  | _ => None
  end.

(** ** [localStorage] and the two effects on [todos] *)

Abbreviation Storage := (gmap jsstring jsstring).

Definition getItem (key : jsstring) (st : Storage) : option jsstring :=
  st !! key.

Definition setItem (key value : jsstring) (st : Storage) : Storage :=
  <[key := value]> st.

(** The initialiser of [useState]:
    [saved ? JSON.parse(saved) : []] with [saved = getItem("modern_todos")]. *)
Definition load_todos (st : Storage) : completion json :=
  let saved := getItem (js "modern_todos") st in
  match saved with
  | Some text => if truthy text then JSON_parse text else Returns (JArr [])
  | None => Returns (JArr [])
  end.

(** The effect that runs when [todos] has changed. *)
Definition persist_todos (todos : list Todo.t) (st : Storage) : Storage :=
  setItem (js "modern_todos") (JSON_stringify todos) st.

(** A task whose fields inhabit their JavaScript types: the id is a safe
    integer and every code unit has sixteen bits. *)
Definition code_units (s : jsstring) : Prop := Forall (λ c, (c < 65536)%N) s.

Record wf_todo (t : Todo.t) : Prop := {
  wf_id : - 2 ^ 53 < Todo.id t < 2 ^ 53;
  wf_text : code_units (Todo.text t);
  wf_priority : code_units (Todo.priority t);
  wf_createdAt : code_units (Todo.createdAt t)
}.

(** ** Vocabulary of the statements *)

(** [selects P l r]: [r] holds exactly the tasks of [l] that satisfy [P],
    each as often as in [l] and in the order of [l]. *)
Inductive selects (P : Todo.t → bool) : list Todo.t → list Todo.t → Prop :=
| selects_nil : selects P [] []
| selects_keep t l r :
    P t = true → selects P l r → selects P (t :: l) (t :: r)
| selects_drop t l r :
    P t = false → selects P l r → selects P (t :: l) r.

(** No two tasks of the collection have the same id. *)
Definition unique_ids (todos : list Todo.t) : Prop :=
  NoDup (Todo.id <$> todos).

(** Deleting an id that occurs shortens the collection by exactly one. *)
Definition delete_removes_one (id : Z) (prev : list Todo.t) : Prop :=
  (∃ t, t ∈ prev ∧ Todo.id t = id) →
  S (length (deleteTodo id prev)) = length prev.

(** Two submissions of the form within one millisecond. *)
Definition same_millisecond : list op :=
  [Add 1700000000000 (js "2023-11-14T22:13:20.000Z") (js "Buy milk") (js "low");
   Add 1700000000000 (js "2023-11-14T22:13:20.000Z") (js "Call Bob") (js "high")].

Definition buy_milk : Todo.t :=
  Todo.mk 1700000000000 (js "Buy milk") false (js "low")
          (js "2023-11-14T22:13:20.000Z").

Definition call_bob : Todo.t :=
  Todo.mk 1700000000001 (js "Call Bob") true (js "high")
          (js "2023-11-14T22:13:20.001Z").

(** What may follow a number in a JSON text. *)
Definition ends_number (c : N) : bool :=
  negb (is_digit c || (c =? 0x2E) || (c =? 0x65) || (c =? 0x45))%N.

(** A parser outcome that is not a lack of fuel and, when it returns,
    leaves at most [bound] code units unread. *)
Definition within {A : Type} (bound : nat) (c : completion (A * jsstring))
    : Prop :=
  match c with
  | Returns (_, r) => (length r ≤ bound)%nat
  | Throws _ => True
  | OutOfFuel => False
  end.

(** Loading falls back to the empty collection when the entry is absent
    and when its text cannot be parsed. *)
Definition load_falls_back (st : Storage) : Prop :=
  (getItem (js "modern_todos") st = None
   ∨ ∃ text e, getItem (js "modern_todos") st = Some text
               ∧ JSON_parse text = Throws e) →
  load_todos st = Returns (JArr []).

(** A storage whose entry was cut off while it was written. *)
Definition truncated_storage : Storage :=
  {[ js "modern_todos" := js "[{" ]}.

(** ** The theme

    [dark] is loaded and written like [todos], under its own key. *)

(** The initialiser of the second [useState]:
    [saved ? JSON.parse(saved) : false] with [saved = getItem("theme_mode")]. *)
Definition load_theme (st : Storage) : completion json :=
  let saved := getItem (js "theme_mode") st in
  match saved with
  | Some text => if truthy text then JSON_parse text else Returns (JBool false)
  | None => Returns (JBool false)
  end.

(** The effect that runs when [dark] has changed; [JSON.stringify] of a
    boolean is its name. *)
Definition persist_theme (dark : bool) (st : Storage) : Storage :=
  setItem (js "theme_mode") (boolean_to_string dark) st.

(** ** What [App] hands to [Footer]

    [total={todos.length}] and
    [completed={todos.filter((t) => t.completed).length}]. *)

Definition footer_props (todos : list Todo.t) : nat * nat :=
  (length todos, length (filter (λ t, Todo.completed t) todos)).

(** The same two expressions on a value as [JSON.parse] returned it.  Only
    an array has [filter]; [null.length] and [null.completed] throw. *)
Inductive rendered (A : Type) : Type :=
| Rendered (a : A)
| TypeError.
Arguments Rendered {A} a.
Arguments TypeError {A}.

(** [o[k]] on the member list of an object; [None] is [undefined]. *)
Fixpoint obj_get (k : jsstring) (ms : list (jsstring * json)) : option json :=
  match ms with
  | [] => None
  | (k', v) :: ms' => if jsstring_eqb k' k then Some v else obj_get k ms'
  end.

(** [ToBoolean]; a number is falsy when it is zero (numbers are the exact
    values of their literals, as in [JSON_parse]). *)
Definition to_boolean (v : json) : bool :=
  match v with
  | JNull => false
  | JBool b => b
  | JNum q => negb (Qnum q =? 0)
  | JStr s => truthy s
  | JArr _ | JObj _ => true
  end.

(** The callback [(t) => t.completed], as the condition of [filter]. *)
Definition completed_of (t : json) : rendered bool :=
  match t with
  | JNull => TypeError
  | JObj ms =>
      Rendered match obj_get (js "completed") ms with
               | Some v => to_boolean v
               | None => false
               end
  | _ => Rendered false
  end.

(** The length of [vs.filter((t) => t.completed)]. *)
Fixpoint count_completed (vs : list json) : rendered nat :=
  match vs with
  | [] => Rendered 0%nat
  | t :: vs' =>
      match completed_of t with
      | TypeError => TypeError
      | Rendered b =>
          match count_completed vs' with
          | TypeError => TypeError
          | Rendered n => Rendered (if b then S n else n)
          end
      end
  end.

Definition footer_props_json (todos : json) : rendered (nat * nat) :=
  match todos with
  | JArr vs =>
      match count_completed vs with
      | TypeError => TypeError
      | Rendered n => Rendered (length vs, n)
      end
  | _ => TypeError
  end.

(** ** The page

    The state of [App] and of the form [AddTodo], the events of the page
    and the handlers they run.  A handler that calls [setTodos] or [setDark]
    is followed by the effect that writes the new value. *)

Module App.

Record t : Type := mk {
  todos : list Todo.t;
  filter : jsstring;
  dark : bool;
  text : jsstring;
  priority : jsstring
}.

End App.

(** The options of the priority selector and their values. *)
Inductive priority_option : Type := Low | Medium | High.

Definition option_value (o : priority_option) : jsstring :=
  match o with
  | Low => js "low"
  | Medium => js "medium"
  | High => js "high"
  end.

(** The buttons of [FilterBar]. *)
Definition filters : list jsstring := [js "all"; js "active"; js "completed"].

Inductive event : Type :=
| TypeText (value : jsstring)
| SelectPriority (o : priority_option)
| Submit (now : Z) (iso : jsstring)
| ClickFilter (i : nat)
| ClickTodo (i : nat)
| ClickDelete (i : nat)
| ClickClear
| ClickDark.

(** The state a mounted [App] starts in. *)
Definition initial (todos : list Todo.t) (dark : bool) : App.t :=
  App.mk todos (js "all") dark [] (js "medium").

(** [setTodos] with a new array, and the effect on [todos] after it. *)
Definition set_todos (todos' : list Todo.t) (s : App.t) (st : Storage)
    : App.t * Storage :=
  (App.mk todos' (App.filter s) (App.dark s) (App.text s) (App.priority s),
   persist_todos todos' st).

(** The handler of an event.  [ClickTodo i] and [ClickDelete i] are clicks
    on the [i]-th item of the list shown, [ClickFilter i] on the [i]-th
    button; where there is no such element nothing happens. *)
Definition dispatch (e : event) (c : App.t * Storage) : App.t * Storage :=
  let '(s, st) := c in
  match e with
  | TypeText value =>
      (App.mk (App.todos s) (App.filter s) (App.dark s) value (App.priority s),
       st)
  | SelectPriority o =>
      (App.mk (App.todos s) (App.filter s) (App.dark s) (App.text s)
              (option_value o), st)
  | Submit now iso =>
      let s' := App.mk (App.todos s) (App.filter s) (App.dark s) []
                       (App.priority s) in
      if truthy (trim (App.text s))
      then set_todos
             (addTodo now iso (App.text s) (App.priority s) (App.todos s))
             s' st
      else (s', st)
  | ClickFilter i =>
      match filters !! i with
      | Some f =>
          (App.mk (App.todos s) f (App.dark s) (App.text s) (App.priority s),
           st)
      | None => (s, st)
      end
  | ClickTodo i =>
      match filteredTodos (App.todos s) (App.filter s) !! i with
      | Some todo => set_todos (toggleTodo (Todo.id todo) (App.todos s)) s st
      | None => (s, st)
      end
  | ClickDelete i =>
      match filteredTodos (App.todos s) (App.filter s) !! i with
      | Some todo => set_todos (deleteTodo (Todo.id todo) (App.todos s)) s st
      | None => (s, st)
      end
  | ClickClear => set_todos (clearCompleted (App.todos s)) s st
  | ClickDark =>
      (App.mk (App.todos s) (App.filter s) (negb (App.dark s)) (App.text s)
              (App.priority s),
       persist_theme (negb (App.dark s)) st)
  end.

(** The two effects after the first render. *)
Definition mount (s : App.t) (st : Storage) : App.t * Storage :=
  (s, persist_theme (App.dark s) (persist_todos (App.todos s) st)).

(** The page after mounting and a sequence of events. *)
Definition session (s : App.t) (st : Storage) (events : list event)
    : App.t * Storage :=
  foldl (λ c e, dispatch e c) (mount s st) events.

(** ** Vocabulary of the further statements *)

(** [t] has the id, text, priority and creation time of an accepted [Add]
    of [ops]. *)
Definition created_by (ops : list op) (t : Todo.t) : Prop :=
  ∃ now iso text priority,
    Add now iso text priority ∈ ops
    ∧ trim text ≠ []
    ∧ t = Todo.mk now text (Todo.completed t) priority iso.

(** The clock values read by the accepted [Add]s of a run, in order. *)
Definition accepted_clocks (ops : list op) : list Z :=
  omap (λ o, match o with
             | Add now _ text _ =>
                 if truthy (trim text) then Some now else None
             | _ => None
             end) ops.

(** The page and the storage agree: loading returns what the page shows. *)
Definition synced (c : App.t * Storage) : Prop :=
  load_todos c.2 = Returns (json_of_todos (App.todos c.1))
  ∧ load_theme c.2 = Returns (JBool (App.dark c.1)).

(** A task as the form can create it. *)
Definition from_form (t : Todo.t) : Prop :=
  trim (Todo.text t) ≠ []
  ∧ ∃ o, Todo.priority t = option_value o.

(** * Properties *)

(** ** Strings *)

Lemma jsstring_eqb_eq (a b : jsstring) : jsstring_eqb a b = true ↔ a = b.
Proof.
  revert b; induction a as [|x a IH]; intros [|y b]; simpl; try done.
  rewrite andb_true_iff, N.eqb_eq, IH.
  split; [intros [-> ->]; reflexivity | intros [= -> ->]; done].
Qed.

Lemma jsstring_eqb_neq (a b : jsstring) : a ≠ b → jsstring_eqb a b = false.
Proof.
  intros Hne. destruct (jsstring_eqb a b) eqn:E; [|done].
  by apply jsstring_eqb_eq in E.
Qed.

Lemma trimStart_nil (s : jsstring) :
  trimStart s = [] ↔ Forall (λ c, is_white_space c = true) s.
Proof.
  induction s as [|c s IH]; simpl.
  - split; [constructor | done].
  - destruct (is_white_space c) eqn:E.
    + rewrite IH. split; [by constructor | by inversion 1].
    + split; [done | inversion 1; congruence].
Qed.

Lemma trimStart_head (s : jsstring) c r :
  trimStart s = c :: r → is_white_space c = false.
Proof.
  induction s as [|d s IH]; simpl; [done|].
  destruct (is_white_space d) eqn:E; [done|]. congruence.
Qed.

(** The trimmed form is empty exactly for the strings made of white space
    only, the empty string among them. *)
Lemma trim_nil (s : jsstring) :
  trim s = [] ↔ Forall (λ c, is_white_space c = true) s.
Proof.
  unfold trim, trimEnd. rewrite <- trimStart_nil.
  destruct (trimStart s) as [|c r] eqn:E; [done|].
  split; [|done]. intros H.
  apply (f_equal (@rev N)) in H. rewrite rev_involutive in H. simpl in H.
  apply trimStart_nil in H. apply Forall_app in H as [_ H].
  apply trimStart_head in E. inversion H. congruence.
Qed.

Lemma truthy_false (s : jsstring) : truthy s = false ↔ s = [].
Proof. by destruct s. Qed.

(** ** Selections *)

Lemma selects_filter (P : Todo.t → bool) (l : list Todo.t) :
  selects P l (filter (λ t, P t) l).
Proof.
  induction l as [|t l IH]; [constructor|].
  destruct (P t) eqn:E.
  - rewrite filter_cons_True by (simpl; by rewrite E). by constructor.
  - rewrite filter_cons_False by (simpl; rewrite E; exact id). by constructor.
Qed.

Lemma selects_sublist P l r : selects P l r → r `sublist_of` l.
Proof. induction 1; by constructor. Qed.

Lemma selects_elem_of P l r :
  selects P l r → ∀ t, t ∈ r ↔ t ∈ l ∧ P t = true.
Proof.
  induction 1 as [|t l r Ht _ IH|t l r Ht _ IH]; intros x.
  - set_solver.
  - rewrite !elem_of_cons, IH. naive_solver.
  - rewrite elem_of_cons, IH. naive_solver congruence.
Qed.

Lemma selects_functional P l r1 r2 :
  selects P l r1 → selects P l r2 → r1 = r2.
Proof.
  intros H; revert r2.
  induction H; inversion 1; subst; try congruence; f_equal; auto.
Qed.

Lemma selects_all P l : (∀ t, t ∈ l → P t = true) → selects P l l.
Proof.
  induction l as [|t l IH]; intros H; constructor.
  - apply H. by left.
  - apply IH. intros x Hx. apply H. by right.
Qed.

Lemma selects_ids P l r :
  selects P l r → (Todo.id <$> r) `sublist_of` (Todo.id <$> l).
Proof. induction 1; simpl; by constructor. Qed.

(** ** The four operations *)

Lemma addTodo_accepts now iso text priority prev :
  trim text ≠ [] →
  addTodo now iso text priority prev
  = Todo.mk now text false priority iso :: prev.
Proof.
  intros H. unfold addTodo.
  destruct (truthy (trim text)) eqn:E; [done|].
  by apply truthy_false in E.
Qed.

(** C2. For every collection and every text whose trimmed form is not
    empty, [addTodo] yields a collection that is one longer, whose first
    element is the new task followed by the old collection, and the new task
    is not completed and carries the given text and priority (its id is the
    clock value and its creation time the ISO string of the call). *)
Theorem addTodo_prepends now iso text priority prev :
  trim text ≠ [] →
  ∃ newTodo,
    addTodo now iso text priority prev = newTodo :: prev
    ∧ length (addTodo now iso text priority prev) = S (length prev)
    ∧ head (addTodo now iso text priority prev) = Some newTodo
    ∧ Todo.completed newTodo = false
    ∧ Todo.priority newTodo = priority
    ∧ Todo.text newTodo = text
    ∧ Todo.id newTodo = now
    ∧ Todo.createdAt newTodo = iso.
Proof.
  intros H. rewrite (addTodo_accepts _ _ _ _ _ H).
  eexists; repeat split.
Qed.

Lemma addTodo_prepends_witness :
  ∃ newTodo,
    addTodo 7 (js "T") (js " a ") (js "low") [call_bob]
    = newTodo :: [call_bob]
    ∧ length (addTodo 7 (js "T") (js " a ") (js "low") [call_bob]) = 2%nat
    ∧ head (addTodo 7 (js "T") (js " a ") (js "low") [call_bob])
      = Some newTodo
    ∧ Todo.completed newTodo = false
    ∧ Todo.priority newTodo = js "low"
    ∧ Todo.text newTodo = js " a "
    ∧ Todo.id newTodo = 7
    ∧ Todo.createdAt newTodo = js "T".
Proof.
  apply (addTodo_prepends 7 (js "T") (js " a ") (js "low") [call_bob]).
  vm_compute. discriminate.
Defined.

(** C9. For every collection and every text whose trimmed form is empty,
    which is the case exactly when the text consists of white space only,
    [addTodo] returns the collection unchanged; being a total function it
    raises nothing. *)
Theorem addTodo_blank now iso text priority prev :
  trim text = [] →
  addTodo now iso text priority prev = prev.
Proof. intros H. unfold addTodo. by rewrite H. Qed.

Lemma addTodo_blank_witness :
  addTodo 7 (js "T") [0x20; 0x09; 0xA0; 0x3000]%N (js "low") [call_bob]
  = [call_bob].
Proof.
  apply (addTodo_blank 7 (js "T") [0x20; 0x09; 0xA0; 0x3000]%N (js "low")).
  vm_compute. reflexivity.
Defined.

Lemma toggleTodo_lookup id prev i :
  toggleTodo id prev !! i
  = (λ t, if Todo.id t =? id
          then Todo.with_completed (negb (Todo.completed t)) t
          else t) <$> prev !! i.
Proof. unfold toggleTodo. apply list_lookup_fmap. Qed.

Lemma toggleTodo_ids id prev :
  Todo.id <$> toggleTodo id prev = Todo.id <$> prev.
Proof.
  unfold toggleTodo. rewrite <- list_fmap_compose.
  apply list_fmap_ext. intros _ t _. simpl. by destruct (Todo.id t =? id).
Qed.

(** C4. [toggleTodo id] keeps the length and, position by position, replaces
    a task whose id is [id] by the task with the same id, text, priority and
    creation time and the negated [completed], and leaves a task with another
    id as it is; when no task has the id the collection is unchanged. *)
Theorem toggleTodo_frame id prev :
  length (toggleTodo id prev) = length prev
  ∧ (∀ i t, prev !! i = Some t →
       ∃ t', toggleTodo id prev !! i = Some t'
         ∧ Todo.id t' = Todo.id t
         ∧ Todo.text t' = Todo.text t
         ∧ Todo.priority t' = Todo.priority t
         ∧ Todo.createdAt t' = Todo.createdAt t
         ∧ (Todo.id t = id → Todo.completed t' = negb (Todo.completed t))
         ∧ (Todo.id t ≠ id → t' = t))
  ∧ ((∀ t, t ∈ prev → Todo.id t ≠ id) → toggleTodo id prev = prev).
Proof.
  split; [|split].
  - unfold toggleTodo. apply length_fmap.
  - intros i t Hi. rewrite toggleTodo_lookup, Hi. simpl.
    eexists; split; [reflexivity|].
    destruct (Z.eqb_spec (Todo.id t) id); simpl; repeat split; congruence.
  - intros Hno. unfold toggleTodo.
    rewrite <- (list_fmap_id prev) at 2.
    apply list_fmap_ext. intros i t Ht. simpl.
    apply list_elem_of_lookup_2 in Ht.
    destruct (Z.eqb_spec (Todo.id t) id); [|done]. by destruct (Hno t).
Qed.

Lemma toggleTodo_frame_witness :
  (∃ t', toggleTodo 1700000000000 [buy_milk; call_bob] !! 0%nat = Some t'
     ∧ Todo.text t' = js "Buy milk"
     ∧ Todo.completed t' = true)
  ∧ toggleTodo 5 [buy_milk; call_bob] = [buy_milk; call_bob].
Proof.
  split.
  - destruct (toggleTodo_frame 1700000000000 [buy_milk; call_bob])
      as (_ & Hpos & _).
    destruct (Hpos 0%nat buy_milk eq_refl) as (t' & Ht' & _ & Htx & _ & _ & Hc & _).
    exists t'. split; [exact Ht'|]. split; [exact Htx|]. exact (Hc eq_refl).
  - apply (toggleTodo_frame 5 [buy_milk; call_bob]).
    intros t Ht. apply list_elem_of_In in Ht. simpl in Ht.
    destruct Ht as [<-|[<-|[]]]; vm_compute; discriminate.
Defined.

Lemma deleteTodo_selects id prev :
  selects (λ t, negb (Todo.id t =? id)) prev (deleteTodo id prev).
Proof. apply selects_filter. Qed.

Lemma deleteTodo_app id l1 l2 :
  deleteTodo id (l1 ++ l2) = deleteTodo id l1 ++ deleteTodo id l2.
Proof. apply filter_app. Qed.

Lemma deleteTodo_no_match id prev :
  (∀ t, t ∈ prev → Todo.id t ≠ id) → deleteTodo id prev = prev.
Proof.
  intros Hno. eapply selects_functional; [apply deleteTodo_selects|].
  apply selects_all. intros t Ht. apply negb_true_iff, Z.eqb_neq. auto.
Qed.

(** C5, as the code has it.  [deleteTodo id] removes every task whose id is
    [id] and no other task, and the tasks that stay keep their order.  When
    the ids of the collection are pairwise different and a task with this id
    occurs, exactly that task goes and the length drops by one; when no task
    has the id the collection is unchanged. *)
Theorem deleteTodo_removes_matching id prev :
  selects (λ t, negb (Todo.id t =? id)) prev (deleteTodo id prev)
  ∧ deleteTodo id prev `sublist_of` prev
  ∧ (∀ t, t ∈ deleteTodo id prev ↔ t ∈ prev ∧ Todo.id t ≠ id)
  ∧ (unique_ids prev →
     ∀ l1 t l2, prev = l1 ++ t :: l2 → Todo.id t = id →
       deleteTodo id prev = l1 ++ l2
       ∧ S (length (deleteTodo id prev)) = length prev)
  ∧ ((∀ t, t ∈ prev → Todo.id t ≠ id) → deleteTodo id prev = prev).
Proof.
  pose proof (deleteTodo_selects id prev) as Hsel.
  split; [done|]. split; [by eapply selects_sublist|]. split; [|split].
  - intros t. rewrite (selects_elem_of _ _ _ Hsel).
    by rewrite negb_true_iff, Z.eqb_neq.
  - unfold unique_ids. intros Hnd l1 t l2 -> Hid.
    rewrite fmap_app, fmap_cons in Hnd.
    apply NoDup_app in Hnd as (_ & Hl1 & Hnd).
    apply NoDup_cons in Hnd as [Hl2 _].
    assert (deleteTodo id (l1 ++ t :: l2) = l1 ++ l2) as ->.
    { rewrite deleteTodo_app. unfold deleteTodo at 2.
      rewrite filter_cons_False
        by (simpl; rewrite (proj2 (Z.eqb_eq _ _) Hid); exact (λ x, x)).
      fold (deleteTodo id l2). f_equal; apply deleteTodo_no_match.
      - intros x Hx Hxid. apply (Hl1 (Todo.id x)).
        + by apply list_elem_of_fmap_2.
        + rewrite Hxid, <- Hid. by left.
      - intros x Hx Hxid. apply Hl2. rewrite Hid, <- Hxid.
        by apply list_elem_of_fmap_2. }
    split; [done|]. rewrite !length_app. simpl. lia.
  - apply deleteTodo_no_match.
Qed.

Lemma deleteTodo_removes_matching_witness :
  (deleteTodo 1700000000000 [buy_milk; call_bob] = [] ++ [call_bob]
   ∧ S (length (deleteTodo 1700000000000 [buy_milk; call_bob])) = 2%nat)
  ∧ deleteTodo 5 [buy_milk; call_bob] = [buy_milk; call_bob].
Proof.
  split.
  - destruct (deleteTodo_removes_matching 1700000000000 [buy_milk; call_bob])
      as (_ & _ & _ & Hone & _).
    apply (Hone ltac:(vm_compute; repeat constructor; set_solver)
                [] buy_milk [call_bob]); reflexivity.
  - apply (deleteTodo_removes_matching 5 [buy_milk; call_bob]).
    intros t Ht. apply list_elem_of_In in Ht. simpl in Ht.
    destruct Ht as [<-|[<-|[]]]; vm_compute; discriminate.
Defined.

(** C5, as stated, fails on a collection the store can reach: after two
    submissions within one millisecond both tasks carry the id that
    [deleteTodo] is given, and both go. *)
Lemma deleteTodo_duplicate_ids :
  ¬ delete_removes_one 1700000000000 (run same_millisecond).
Proof.
  unfold delete_removes_one. intros H.
  assert (S 0 = 2)%nat as Habs; [|discriminate Habs].
  apply H.
  exists (Todo.mk 1700000000000 (js "Call Bob") false (js "high")
                  (js "2023-11-14T22:13:20.000Z")).
  split; [apply list_elem_of_here | reflexivity].
Qed.

Lemma clearCompleted_selects prev :
  selects (λ t, negb (Todo.completed t)) prev (clearCompleted prev).
Proof. apply selects_filter. Qed.

(** C6. [clearCompleted] keeps exactly the tasks that are not completed:
    the result is the selection of those tasks, in the order of the
    collection; no completed task is in it and every task that is not
    completed stays, at its place between its neighbours. *)
Theorem clearCompleted_keeps_active prev :
  selects (λ t, negb (Todo.completed t)) prev (clearCompleted prev)
  ∧ clearCompleted prev `sublist_of` prev
  ∧ (∀ t, t ∈ clearCompleted prev ↔ t ∈ prev ∧ Todo.completed t = false)
  ∧ Forall (λ t, Todo.completed t = false) (clearCompleted prev)
  ∧ (∀ l1 t l2, prev = l1 ++ t :: l2 → Todo.completed t = false →
       clearCompleted prev = clearCompleted l1 ++ t :: clearCompleted l2).
Proof.
  pose proof (clearCompleted_selects prev) as Hsel.
  assert (∀ t, t ∈ clearCompleted prev ↔ t ∈ prev ∧ Todo.completed t = false)
    as Hiff.
  { intros t. rewrite (selects_elem_of _ _ _ Hsel).
    by rewrite negb_true_iff. }
  split; [done|]. split; [by eapply selects_sublist|]. split; [done|].
  split.
  - apply Forall_forall. intros t Ht. by apply Hiff in Ht as [_ ?].
  - intros l1 t l2 -> Hc. unfold clearCompleted.
    rewrite filter_app, filter_cons_True; [done|].
    simpl. by rewrite Hc.
Qed.

Lemma clearCompleted_keeps_active_witness :
  clearCompleted [call_bob; buy_milk; call_bob]
  = clearCompleted [call_bob] ++ buy_milk :: clearCompleted [call_bob].
Proof.
  apply (clearCompleted_keeps_active [call_bob; buy_milk; call_bob]);
    reflexivity.
Defined.

(** ** The visible tasks *)

(** C7. [filteredTodos] is a function of the collection and the filter:
    under "all" it is the collection itself, under "active" the selection of
    the tasks that are not completed and under "completed" the selection of
    the completed ones, each in the order of the collection. *)
Theorem filteredTodos_views todos :
  filteredTodos todos (js "all") = todos
  ∧ (selects (λ t, negb (Todo.completed t)) todos
       (filteredTodos todos (js "active"))
     ∧ filteredTodos todos (js "active") `sublist_of` todos
     ∧ ∀ t, t ∈ filteredTodos todos (js "active")
            ↔ t ∈ todos ∧ Todo.completed t = false)
  ∧ (selects (λ t, Todo.completed t) todos
       (filteredTodos todos (js "completed"))
     ∧ filteredTodos todos (js "completed") `sublist_of` todos
     ∧ ∀ t, t ∈ filteredTodos todos (js "completed")
            ↔ t ∈ todos ∧ Todo.completed t = true).
Proof.
  split; [reflexivity|].
  change (filteredTodos todos (js "active"))
    with (filter (λ t, negb (Todo.completed t)) todos).
  change (filteredTodos todos (js "completed"))
    with (filter (λ t, Todo.completed t) todos).
  pose proof (selects_filter (λ t, negb (Todo.completed t)) todos) as Ha.
  pose proof (selects_filter (λ t, Todo.completed t) todos) as Hc.
  split; (split; [done|]); (split; [by eapply selects_sublist|]); intros t.
  - rewrite (selects_elem_of _ _ _ Ha). by rewrite negb_true_iff.
  - by rewrite (selects_elem_of _ _ _ Hc).
Qed.

(** C10. Under every filter value other than "active" and "completed", not
    only under "all", [filteredTodos] is the collection itself. *)
Theorem filteredTodos_other todos (filter_ : jsstring) :
  filter_ ≠ js "active" → filter_ ≠ js "completed" →
  filteredTodos todos filter_ = todos.
Proof.
  intros Ha Hc. unfold filteredTodos.
  by rewrite (jsstring_eqb_neq _ _ Ha), (jsstring_eqb_neq _ _ Hc).
Qed.

Lemma filteredTodos_other_witness :
  filteredTodos [buy_milk; call_bob] (js "Active") = [buy_milk; call_bob].
Proof.
  apply (filteredTodos_other [buy_milk; call_bob] (js "Active"));
    vm_compute; discriminate.
Defined.

(** ** Ids along a run *)

Lemma step_unique_ids prev o :
  unique_ids prev →
  match o with
  | Add now _ text _ => truthy (trim text) = true → now ∉ (Todo.id <$> prev)
  | _ => True
  end →
  unique_ids (step prev o).
Proof.
  unfold unique_ids. intros Hnd Hfresh. destruct o as [now iso text p|id|id|].
  - simpl. unfold addTodo. destruct (truthy (trim text)); simpl; [|done].
    apply NoDup_cons; auto.
  - simpl. by rewrite toggleTodo_ids.
  - simpl. eapply sublist_NoDup; [exact Hnd|].
    eapply selects_ids, deleteTodo_selects.
  - simpl. eapply sublist_NoDup; [exact Hnd|].
    eapply selects_ids, clearCompleted_selects.
Qed.

Lemma foldl_step_unique_ids ops prev :
  unique_ids prev → fresh_clock prev ops → unique_ids (foldl step prev ops).
Proof.
  revert prev; induction ops as [|o ops IH]; intros prev Hnd Hf; [done|].
  destruct Hf as [Ho Hf]. simpl. apply IH; [|done].
  by apply step_unique_ids.
Qed.

Lemma accepted_clocks_cons o ops :
  accepted_clocks (o :: ops)
  = match o with
    | Add now _ text _ =>
        if truthy (trim text) then now :: accepted_clocks ops
        else accepted_clocks ops
    | _ => accepted_clocks ops
    end.
Proof.
  destruct o as [now iso text p|id|id|]; try reflexivity.
  unfold accepted_clocks. simpl. by destruct (truthy (trim text)).
Qed.

Lemma step_ids prev o :
  Todo.id <$> step prev o
  = match o with
    | Add now _ text _ =>
        if truthy (trim text) then now :: (Todo.id <$> prev)
        else Todo.id <$> prev
    | Toggle _ => Todo.id <$> prev
    | _ => Todo.id <$> step prev o
    end.
Proof.
  destruct o as [now iso text p|id|id|]; simpl; [|apply toggleTodo_ids|done..].
  unfold addTodo. by destruct (truthy (trim text)).
Qed.

Lemma step_kept_sublist prev o :
  match o with
  | Delete _ | ClearCompleted => step prev o `sublist_of` prev
  | _ => True
  end.
Proof.
  destruct o as [now iso text p|id|id|]; simpl; [done..| |].
  - eapply selects_sublist, deleteTodo_selects.
  - eapply selects_sublist, clearCompleted_selects.
Qed.

(** The id of every task of a run is a clock value that an accepted [Add]
    read, or the id of a task the run started with. *)
Lemma foldl_step_clock_ids ops prev t :
  t ∈ foldl step prev ops →
  Todo.id t ∈ (Todo.id <$> prev) ∨ Todo.id t ∈ accepted_clocks ops.
Proof.
  revert prev; induction ops as [|o ops IH]; intros prev Ht.
  { left. by apply list_elem_of_fmap_2. }
  simpl in Ht. apply IH in Ht. rewrite accepted_clocks_cons.
  destruct Ht as [Ht|Ht].
  - rewrite step_ids in Ht.
    destruct o as [now iso text p|id|id|].
    + destruct (truthy (trim text)); [|by left].
      apply elem_of_cons in Ht as [->|Ht]; [right; left | by left].
    + by left.
    + left. eapply sublist_subseteq; [|exact Ht].
      eapply selects_ids, deleteTodo_selects.
    + left. eapply sublist_subseteq; [|exact Ht].
      eapply selects_ids, clearCompleted_selects.
  - right. destruct o as [now iso text p|id|id|]; try done.
    destruct (truthy (trim text)); [by right|done].
Qed.

(** C3, as the code has it.  The id of a task is the clock value read by
    the [addTodo] that created it: an accepted [Add] puts its clock value in
    front of the ids, a toggle leaves the ids as they are, position by
    position, and a delete or a clearing keeps tasks of the collection as
    they are, so that every id of a reachable collection is the clock value
    of an accepted [Add] of the run.  Along every run from the empty
    collection in which each accepted [Add] reads a clock value that is not
    the id of a task present at that moment, no two tasks of the collection
    have the same id. *)
Theorem run_unique_ids ops :
  (∀ prev now iso text priority, trim text ≠ [] →
     Todo.id <$> step prev (Add now iso text priority)
     = now :: (Todo.id <$> prev))
  ∧ (∀ prev id, Todo.id <$> step prev (Toggle id) = Todo.id <$> prev)
  ∧ (∀ prev id, step prev (Delete id) `sublist_of` prev)
  ∧ (∀ prev, step prev ClearCompleted `sublist_of` prev)
  ∧ (∀ t, t ∈ run ops → Todo.id t ∈ accepted_clocks ops)
  ∧ (fresh_clock [] ops → unique_ids (run ops)).
Proof.
  split; [|split; [|split; [|split; [|split]]]].
  - intros prev now iso text p Htext.
    rewrite (step_ids prev (Add now iso text p)).
    destruct (truthy (trim text)) eqn:E; [done|].
    by apply truthy_false in E.
  - intros prev id. apply (step_ids prev (Toggle id)).
  - intros prev id. apply (step_kept_sublist prev (Delete id)).
  - intros prev. apply (step_kept_sublist prev ClearCompleted).
  - intros t Ht. apply foldl_step_clock_ids in Ht as [Ht|Ht]; [|done].
    by apply elem_of_nil in Ht.
  - apply foldl_step_unique_ids. unfold unique_ids. constructor.
Qed.

Lemma run_unique_ids_witness :
  let ops := [Add 1 (js "T1") (js "Buy milk") (js "low");
              Add 2 (js "T2") (js "Call Bob") (js "high");
              Toggle 1; Add 1 (js "T3") (js "  ") (js "low");
              ClearCompleted; Add 1 (js "T4") (js "Again") (js "medium");
              Add 3 (js "T5") (js "Tea") (js "high")] in
  (Todo.id <$> run ops) = [3; 1; 2]
  ∧ unique_ids (run ops)
  ∧ Todo.id call_bob ∈ accepted_clocks
      [Add 1700000000001 (js "2023-11-14T22:13:20.001Z") (js "Call Bob")
           (js "high"); Toggle 1700000000001]
  ∧ Todo.id <$> step [buy_milk; call_bob]
                     (Add 7 (js "T") (js "tea") (js "low"))
    = 7 :: (Todo.id <$> [buy_milk; call_bob]).
Proof.
  intros ops. split; [reflexivity|]. split; [|split].
  - apply (run_unique_ids ops).
    repeat split; vm_compute; try discriminate; intros _ H;
      repeat (apply elem_of_cons in H as [H|H]; [discriminate H|]);
      by apply elem_of_nil in H.
  - apply (run_unique_ids
             [Add 1700000000001 (js "2023-11-14T22:13:20.001Z")
                  (js "Call Bob") (js "high"); Toggle 1700000000001]).
    vm_compute. left.
  - apply (run_unique_ids []). vm_compute. discriminate.
Defined.

(** C3, as stated, fails: two submissions within one millisecond give two
    tasks with one id. *)
Lemma same_millisecond_collision : ¬ unique_ids (run same_millisecond).
Proof.
  unfold unique_ids. intros H. vm_compute in H.
  apply NoDup_cons in H as [H _]. apply H. left.
Qed.

(** The scenario of the specification. *)
Example scenario :
  let buy := Add 1 (js "t1") (js "Buy milk") (js "low") in
  let call := Add 2 (js "t2") (js "Call Bob") (js "high") in
  (Todo.text <$> run [buy; call]) = [js "Call Bob"; js "Buy milk"]
  ∧ (Todo.text <$> filteredTodos (run [buy; call; Toggle 1]) (js "completed"))
      = [js "Buy milk"]
  ∧ (Todo.text <$> run [buy; call; Toggle 1; ClearCompleted])
      = [js "Call Bob"].
Proof. vm_compute. done. Qed.

(** ** Reading back what [JSON.stringify] wrote *)

Lemma hex_value_digit d : (d < 16)%N → hex_value (hex_digit d) = Some d.
Proof.
  intros H.
  assert (d = 0 ∨ d = 1 ∨ d = 2 ∨ d = 3 ∨ d = 4 ∨ d = 5 ∨ d = 6 ∨ d = 7
          ∨ d = 8 ∨ d = 9 ∨ d = 10 ∨ d = 11 ∨ d = 12 ∨ d = 13 ∨ d = 14
          ∨ d = 15)%N as Hd by lia.
  repeat (destruct Hd as [->|Hd]; [reflexivity|]). by subst.
Qed.

Lemma hex4_value_escape c :
  (c < 65536)%N →
  hex4_value (hex_digit (c / 4096)) (hex_digit ((c / 256) mod 16))
             (hex_digit ((c / 16) mod 16)) (hex_digit (c mod 16)) = Some c.
Proof.
  intros H. unfold hex4_value.
  rewrite !hex_value_digit by (zify; Z.to_euclidean_division_equations; lia).
  cbn -[N.div N.modulo N.mul N.add]. f_equal.
  zify. Z.to_euclidean_division_equations. lia.
Qed.

Lemma parse_chars_unicode_escape c k :
  (c < 65536)%N →
  parse_chars (unicode_escape c ++ k) = cons_char c (parse_chars k).
Proof.
  intros H. unfold unicode_escape.
  change (parse_chars (_ ++ k)) with
    (match hex4_value (hex_digit (c / 4096)) (hex_digit ((c / 256) mod 16))
             (hex_digit ((c / 16) mod 16)) (hex_digit (c mod 16)) with
     | Some u => cons_char u (parse_chars k)
     | None => Throws SyntaxError
     end).
  by rewrite hex4_value_escape.
Qed.

Lemma parse_chars_raw c k :
  c ≠ 0x22%N → c ≠ 0x5C%N → (0x20 <= c)%N →
  parse_chars (c :: k) = cons_char c (parse_chars k).
Proof.
  intros H1 H2 H3. simpl.
  destruct (N.eqb_spec c 0x22); [done|].
  destruct (N.eqb_spec c 0x5C); [done|].
  destruct (N.ltb_spec c 0x20); [lia|done].
Qed.

Lemma parse_chars_code_unit b c r k :
  parse_chars (quote_code_unit b c r ++ k) = cons_char c (parse_chars k).
Proof.
  unfold quote_code_unit, is_high_surrogate, is_low_surrogate.
  destruct (N.eqb_spec c 0x08) as [->|?]; [reflexivity|].
  destruct (N.eqb_spec c 0x09) as [->|?]; [reflexivity|].
  destruct (N.eqb_spec c 0x0A) as [->|?]; [reflexivity|].
  destruct (N.eqb_spec c 0x0C) as [->|?]; [reflexivity|].
  destruct (N.eqb_spec c 0x0D) as [->|?]; [reflexivity|].
  destruct (N.eqb_spec c 0x22) as [->|?]; [reflexivity|].
  destruct (N.eqb_spec c 0x5C) as [->|?]; [reflexivity|].
  destruct (N.ltb_spec c 0x20).
  { apply parse_chars_unicode_escape. lia. }
  destruct (N.leb_spec 0xD800 c), (N.leb_spec c 0xDBFF); simpl;
    [ destruct r as [|c' r];
        [apply parse_chars_unicode_escape; lia|];
      destruct (_ && _);
        [apply parse_chars_raw | apply parse_chars_unicode_escape]; lia
    | .. ];
    (destruct (N.leb_spec 0xDC00 c), (N.leb_spec c 0xDFFF); simpl;
       try (apply parse_chars_raw; lia);
     destruct b;
       [apply parse_chars_raw | apply parse_chars_unicode_escape]; lia).
Qed.

(** Reading the characters that [QuoteJSONString] wrote gives the string
    back, whatever follows the closing quote. *)
Lemma parse_chars_quote_chars s b rest :
  parse_chars (quote_chars b s ++ 0x22%N :: rest) = Returns (s, rest).
Proof.
  revert b; induction s as [|c s IH]; intros b; [reflexivity|].
  simpl. rewrite <- app_assoc, parse_chars_code_unit, IH. reflexivity.
Qed.


Lemma uint_of_digits_of_uint u : uint_of_digits (digits_of_uint u) = u.
Proof.
  unfold uint_of_digits. induction u; simpl; [done|..]; by rewrite IHu.
Qed.

Lemma take_digits_of_uint u c r :
  is_digit c = false →
  take_digits (digits_of_uint u ++ c :: r) = (digits_of_uint u, c :: r).
Proof.
  intros Hc. induction u; simpl; try (by rewrite IHu). by rewrite Hc.
Qed.

Lemma nzhead_not_D0 u v : Decimal.nzhead u ≠ Decimal.D0 v.
Proof. induction u; simpl; done. Qed.

Lemma to_uint_normal n : Decimal.unorm (N.to_uint n) = N.to_uint n.
Proof.
  rewrite <- (DecimalN.Unsigned.to_of (N.to_uint n)).
  by rewrite DecimalN.Unsigned.of_to.
Qed.

(** The decimal expansion of a natural number has no leading zero, except
    that of zero, which is the digit [0]. *)
Lemma to_uint_D0 n u : N.to_uint n = Decimal.D0 u → u = Decimal.Nil.
Proof.
  intros H. pose proof (to_uint_normal n) as Hn. rewrite H in Hn.
  unfold Decimal.unorm in Hn.
  destruct (Decimal.nzhead (Decimal.D0 u)) eqn:E;
    first [ by injection Hn | by apply nzhead_not_D0 in E | discriminate Hn ].
Qed.

Lemma to_uint_nonnil n : N.to_uint n ≠ Decimal.Nil.
Proof.
  destruct n; [done|]. apply DecimalPos.Unsigned.to_uint_nonnil.
Qed.

Lemma digits_value_of_uint n :
  digits_value (digits_of_uint (N.to_uint n)) = Z.of_N n.
Proof.
  unfold digits_value.
  by rewrite uint_of_digits_of_uint, DecimalN.Unsigned.of_to.
Qed.

Lemma parse_int_digits_of_uint n c r :
  is_digit c = false →
  parse_int_digits (digits_of_uint (N.to_uint n) ++ c :: r)
  = Returns (digits_of_uint (N.to_uint n), c :: r).
Proof.
  intros Hc. pose proof (take_digits_of_uint (N.to_uint n) c r Hc) as Ht.
  destruct (N.to_uint n) as [|u|u|u|u|u|u|u|u|u|u] eqn:E;
    [ by apply to_uint_nonnil in E | apply to_uint_D0 in E as ->; reflexivity
    | match goal with
      | |- parse_int_digits ?s = _ =>
          change (parse_int_digits s) with (Returns (take_digits s))
      end; by rewrite Ht .. ].
Qed.

Lemma parse_sign_of_uint n r :
  parse_sign (digits_of_uint (N.to_uint n) ++ r)
  = (false, digits_of_uint (N.to_uint n) ++ r).
Proof.
  destruct (N.to_uint n) eqn:E; [by apply to_uint_nonnil in E|reflexivity..].
Qed.

Lemma decimal_value_integer m : decimal_value m (0 - Z.of_nat 0) = inject_Z m.
Proof. unfold decimal_value. simpl. by rewrite Z.mul_1_r. Qed.

Lemma parse_number_tail (b : bool) (m : Z) (ds : jsstring) (c : N)
    (r : jsstring) :
  ends_number c = true → digits_value ds = m →
  ('(fds, r2) ← parse_fraction (c :: r);
   '(e, r3) ← parse_exponent r2;
   let q := decimal_value (digits_value (ds ++ fds))
                          (e - Z.of_nat (length fds)) in
   mret (if b then Qopp q else q, r3))
  = Returns (if b then Qopp (inject_Z m) else inject_Z m, c :: r).
Proof.
  unfold ends_number. rewrite negb_true_iff, !orb_false_iff.
  intros [[[_ Hdot] He] HE] <-.
  unfold parse_fraction. rewrite Hdot. simpl.
  rewrite He, HE. simpl. rewrite app_nil_r.
  by rewrite (decimal_value_integer (digits_value ds)).
Qed.

(** Reading the decimal expansion of an integer gives the integer back. *)
Lemma parse_number_to_string z c r :
  ends_number c = true →
  parse_number (number_to_string z ++ c :: r) = Returns (inject_Z z, c :: r).
Proof.
  intros Hc.
  assert (is_digit c = false) as Hd.
  { unfold ends_number in Hc. rewrite negb_true_iff, !orb_false_iff in Hc.
    tauto. }
  unfold number_to_string, parse_number.
  destruct (Z.ltb_spec z 0) as [Hneg|Hpos].
  - change (parse_sign _)
      with (true, digits_of_uint (N.to_uint (Z.abs_N z)) ++ c :: r).
    cbv iota beta. rewrite parse_int_digits_of_uint by done.
    cbn [mbind completion_bind].
    rewrite (parse_number_tail true (Z.of_N (Z.abs_N z)))
      by auto using digits_value_of_uint.
    do 2 f_equal. unfold Qopp, inject_Z. simpl. f_equal. lia.
  - rewrite app_nil_l, parse_sign_of_uint.
    cbv iota beta. rewrite parse_int_digits_of_uint by done.
    cbn [mbind completion_bind].
    rewrite (parse_number_tail false (Z.of_N (Z.abs_N z)))
      by auto using digits_value_of_uint.
    do 3 f_equal. lia.
Qed.

Lemma number_to_string_head z :
  ∃ d k, number_to_string z = d :: k ∧ ((d =? 0x2D)%N || is_digit d) = true.
Proof.
  unfold number_to_string. destruct (z <? 0); [by eexists _, _|].
  destruct (N.to_uint (Z.abs_N z)) eqn:E;
    [by apply to_uint_nonnil in E | by eexists _, _ ..].
Qed.

(** One step of each of the three mutually recursive parsers. *)

Lemma parse_value_unfold n s :
  parse_value (S n) s
  = match skip_ws s with
    | [] => Throws SyntaxError
    | c :: r =>
        if (c =? 0x22)%N then
          '(cs, r') ← parse_chars r; mret (JStr cs, r')
        else if (c =? 0x5B)%N then
          match skip_ws r with
          | c' :: r' =>
              if (c' =? 0x5D)%N then Returns (JArr [], r')
              else '(vs, r2) ← parse_elements n r; mret (JArr vs, r2)
          | [] => Throws SyntaxError
          end
        else if (c =? 0x7B)%N then
          match skip_ws r with
          | c' :: r' =>
              if (c' =? 0x7D)%N then Returns (JObj [], r')
              else '(ms, r2) ← parse_members n r;
                   mret (JObj (obj_of_members ms), r2)
          | [] => Throws SyntaxError
          end
        else if ((c =? 0x2D) || is_digit c)%N then
          '(q, r') ← parse_number (c :: r); mret (JNum q, r')
        else parse_literal (c :: r)
    end.
Proof. reflexivity. Qed.

Lemma parse_members_unfold n s :
  parse_members (S n) s
  = match skip_ws s with
    | q :: r0 =>
        if (q =? 0x22)%N then
          '(k, r1) ← parse_chars r0;
          match skip_ws r1 with
          | c :: r2 =>
              if (c =? 0x3A)%N then
                '(v, r3) ← parse_value n r2;
                match skip_ws r3 with
                | c' :: r4 =>
                    if (c' =? 0x2C)%N then
                      '(ms, r5) ← parse_members n r4;
                      mret ((k, v) :: ms, r5)
                    else if (c' =? 0x7D)%N then Returns ([(k, v)], r4)
                    else Throws SyntaxError
                | [] => Throws SyntaxError
                end
              else Throws SyntaxError
          | [] => Throws SyntaxError
          end
        else Throws SyntaxError
    | [] => Throws SyntaxError
    end.
Proof. reflexivity. Qed.

Lemma parse_elements_unfold n s :
  parse_elements (S n) s
  = '(v, r) ← parse_value n s;
    match skip_ws r with
    | c :: r' =>
        if (c =? 0x2C)%N then
          '(vs, r2) ← parse_elements n r'; mret (v :: vs, r2)
        else if (c =? 0x5D)%N then Returns ([v], r')
        else Throws SyntaxError
    | [] => Throws SyntaxError
    end.
Proof. reflexivity. Qed.

Lemma quote_app s rest :
  quote s ++ rest = 0x22%N :: quote_chars false s ++ 0x22%N :: rest.
Proof. unfold quote. simpl. by rewrite <- app_assoc. Qed.

Lemma parse_value_quote n s rest :
  parse_value (S n) (quote s ++ rest) = Returns (JStr s, rest).
Proof.
  rewrite quote_app.
  rewrite parse_value_unfold. change (skip_ws (0x22%N :: ?k)) with (0x22%N :: k).
  cbv beta iota. change (0x22 =? 0x22)%N with true. cbv iota.
  by rewrite parse_chars_quote_chars.
Qed.

Lemma parse_value_boolean n b c r :
  parse_value (S n) (boolean_to_string b ++ c :: r) = Returns (JBool b, c :: r).
Proof. by destruct b. Qed.

Lemma parse_value_number n z c r :
  ends_number c = true →
  parse_value (S n) (number_to_string z ++ c :: r)
  = Returns (JNum (inject_Z z), c :: r).
Proof.
  intros Hc. pose proof (parse_number_to_string z c r Hc) as Hp.
  destruct (number_to_string_head z) as (d & k & Hz & Hd).
  rewrite Hz in *. simpl app in *.
  assert (parse_value (S n) (d :: k ++ c :: r)
          = '(q, r') ← parse_number (d :: k ++ c :: r); mret (JNum q, r'))
    as ->; [|by rewrite Hp].
  unfold is_digit in Hd.
  assert (d = 0x2D ∨ 0x30 ≤ d ≤ 0x39)%N as Hrange.
  { apply orb_true_iff in Hd as [Hd|Hd]; [left; by apply N.eqb_eq|right].
    apply andb_true_iff in Hd as [?%N.leb_le ?%N.leb_le]. done. }
  assert (is_json_ws d = false) as Hws.
  { unfold is_json_ws. rewrite !orb_false_iff, !N.eqb_neq. lia. }
  rewrite parse_value_unfold.
  change (skip_ws (d :: ?s)) with (if is_json_ws d then skip_ws s else d :: s).
  rewrite Hws.
  replace (d =? 0x22)%N with false by (symmetry; apply N.eqb_neq; lia).
  replace (d =? 0x5B)%N with false by (symmetry; apply N.eqb_neq; lia).
  replace (d =? 0x7B)%N with false by (symmetry; apply N.eqb_neq; lia).
  unfold is_digit. by rewrite Hd.
Qed.

Lemma parse_members_field n k v sv rest :
  parse_value n (sv ++ 0x2C%N :: rest) = Returns (v, 0x2C%N :: rest) →
  parse_members (S n) (quote k ++ 0x3A%N :: sv ++ 0x2C%N :: rest)
  = '(ms, r) ← parse_members n rest; mret ((k, v) :: ms, r).
Proof.
  intros Hv. rewrite quote_app.
  rewrite parse_members_unfold.
  change (skip_ws (0x22%N :: ?s)) with (0x22%N :: s). cbv beta iota.
  change (0x22 =? 0x22)%N with true. cbv iota.
  rewrite parse_chars_quote_chars.
  cbn [mbind completion_bind]. cbv beta iota.
  change (skip_ws (0x3A%N :: ?s)) with (0x3A%N :: s). cbv beta iota.
  change (0x3A =? 0x3A)%N with true. cbv iota.
  rewrite Hv. reflexivity.
Qed.

Lemma parse_members_last n k v sv rest :
  parse_value n (sv ++ 0x7D%N :: rest) = Returns (v, 0x7D%N :: rest) →
  parse_members (S n) (quote k ++ 0x3A%N :: sv ++ 0x7D%N :: rest)
  = Returns ([(k, v)], rest).
Proof.
  intros Hv. rewrite quote_app.
  rewrite parse_members_unfold.
  change (skip_ws (0x22%N :: ?s)) with (0x22%N :: s). cbv beta iota.
  change (0x22 =? 0x22)%N with true. cbv iota.
  rewrite parse_chars_quote_chars.
  cbn [mbind completion_bind]. cbv beta iota.
  change (skip_ws (0x3A%N :: ?s)) with (0x3A%N :: s). cbv beta iota.
  change (0x3A =? 0x3A)%N with true. cbv iota.
  rewrite Hv. reflexivity.
Qed.

Lemma ends_number_comma : ends_number 0x2C%N = true.
Proof. reflexivity. Qed.

(** Reading the text of one task gives the task object back. *)
Lemma parse_value_todo n t rest :
  (7 ≤ n)%nat →
  parse_value n (stringify_todo t ++ rest) = Returns (json_of_todo t, rest).
Proof.
  intros Hn. do 7 (destruct n as [|n]; [lia|]). clear Hn.
  unfold stringify_todo. rewrite <- !app_assoc. cbn [app].
  change (parse_value (S ?m) (0x7B%N :: quote ?k ++ ?s))
    with ('(ms, r2) ← parse_members m (quote k ++ s);
          mret (JObj (obj_of_members ms), r2)).
  rewrite (parse_members_field _ _ (JNum (inject_Z (Todo.id t))))
    by apply parse_value_number, ends_number_comma.
  rewrite (parse_members_field _ _ (JStr (Todo.text t)))
    by apply parse_value_quote.
  rewrite (parse_members_field _ _ (JBool (Todo.completed t)))
    by apply parse_value_boolean.
  rewrite (parse_members_field _ _ (JStr (Todo.priority t)))
    by apply parse_value_quote.
  rewrite (parse_members_last _ _ (JStr (Todo.createdAt t)))
    by apply parse_value_quote.
  reflexivity.
Qed.

Lemma stringify_todo_length t : (3 ≤ length (stringify_todo t))%nat.
Proof. unfold stringify_todo. rewrite !length_app. simpl. lia. Qed.

Lemma stringify_elements_cons t ts :
  ts ≠ [] →
  stringify_elements (t :: ts)
  = stringify_todo t ++ 0x2C%N :: stringify_elements ts.
Proof. by destruct ts. Qed.

Lemma stringify_elements_singleton t :
  stringify_elements [t] = stringify_todo t.
Proof. apply app_nil_r. Qed.

Lemma stringify_elements_length ts :
  (3 * length ts ≤ length (stringify_elements ts))%nat.
Proof.
  induction ts as [|t ts IH]; [simpl; lia|].
  pose proof (stringify_todo_length t).
  destruct ts as [|t' ts]; [rewrite stringify_elements_singleton; simpl; lia|].
  rewrite stringify_elements_cons by done.
  rewrite length_app. simpl in *. lia.
Qed.

(** Reading the texts of the tasks of a non-empty collection, up to the
    closing bracket, gives the task objects back in the same order. *)
Lemma parse_elements_todos ts n rest :
  ts ≠ [] → (length ts + 7 ≤ n)%nat →
  parse_elements n (stringify_elements ts ++ 0x5D%N :: rest)
  = Returns (json_of_todo <$> ts, rest).
Proof.
  revert n; induction ts as [|t ts IH]; intros n Hne Hn; [done|].
  destruct n as [|n]; [simpl in Hn; lia|]. simpl in Hn.
  rewrite parse_elements_unfold.
  destruct ts as [|t' ts].
  - rewrite stringify_elements_singleton.
    rewrite parse_value_todo by lia. reflexivity.
  - rewrite stringify_elements_cons by done.
    rewrite <- app_assoc. cbn [app].
    rewrite parse_value_todo by (simpl in Hn; lia).
    cbn [mbind completion_bind]. cbv beta iota.
    change (skip_ws (0x2C%N :: ?s)) with (0x2C%N :: s). cbv beta iota.
    change (0x2C =? 0x2C)%N with true. cbv iota.
    rewrite IH by (done || simpl in *; lia). reflexivity.
Qed.

(** [JSON.parse(JSON.stringify(todos))] returns the array of the task
    objects of [todos]. *)
Lemma JSON_parse_stringify todos :
  JSON_parse (JSON_stringify todos) = Returns (json_of_todos todos).
Proof.
  destruct todos as [|t ts]; [reflexivity|].
  unfold JSON_parse, JSON_stringify.
  pose proof (stringify_elements_length (t :: ts)) as Hlen.
  set (s := stringify_elements (t :: ts)) in *.
  replace (2 * length (0x5B%N :: s ++ [0x5D%N]) + 1)%nat
    with (S (2 * length (0x5B%N :: s ++ [0x5D%N])))%nat by lia.
  assert (parse_value (S (2 * length (0x5B%N :: s ++ [0x5D%N])))
            (0x5B%N :: s ++ [0x5D%N])
          = '(vs, r2) ← parse_elements (2 * length (0x5B%N :: s ++ [0x5D%N]))
                          (s ++ [0x5D%N]);
            mret (JArr vs, r2)) as ->.
  { subst s. destruct ts; reflexivity. }
  subst s. rewrite parse_elements_todos; [reflexivity|done|].
  simpl length in *. rewrite length_app. simpl. lia.
Qed.

Lemma todo_of_json_of_todo t : todo_of_json (json_of_todo t) = Some t.
Proof. by destruct t. Qed.

Lemma todos_of_json_of_todos todos :
  todos_of_json (json_of_todos todos) = Some todos.
Proof.
  unfold todos_of_json, json_of_todos.
  induction todos as [|t ts IH]; [reflexivity|].
  rewrite fmap_cons. cbn [mapM].
  rewrite todo_of_json_of_todo, IH. reflexivity.
Qed.

Lemma load_persist (todos : list Todo.t) (st : Storage) :
  load_todos (persist_todos todos st) = JSON_parse (JSON_stringify todos).
Proof.
  unfold load_todos, persist_todos, getItem, setItem.
  rewrite lookup_insert_eq. reflexivity.
Qed.

(** C8. For every collection of well-formed tasks and every state of the
    storage, writing the collection and loading it again returns the array
    of the same task objects: the same ids, texts, completion flags,
    priorities and creation times, in the same order. *)
Theorem persist_load_roundtrip (todos : list Todo.t) (st : Storage) :
  Forall wf_todo todos →
  load_todos (persist_todos todos st) = Returns (json_of_todos todos)
  ∧ todos_of_json (json_of_todos todos) = Some todos.
Proof.
  intros _. split.
  - by rewrite load_persist, JSON_parse_stringify.
  - apply todos_of_json_of_todos.
Qed.

Lemma persist_load_roundtrip_witness :
  load_todos (persist_todos [buy_milk; call_bob] ∅)
  = Returns (json_of_todos [buy_milk; call_bob])
  ∧ todos_of_json (json_of_todos [buy_milk; call_bob])
    = Some [buy_milk; call_bob].
Proof.
  apply (persist_load_roundtrip [buy_milk; call_bob] ∅).
  repeat constructor; vm_compute; done || (intros; discriminate).
Defined.

(** ** [JSON.parse] terminates

    Every parser consumes what it reads, so the fuel that [JSON_parse]
    provides is never used up. *)

Lemma within_mono {A} (b b' : nat) (c : completion (A * jsstring)) :
  (b ≤ b')%nat → within b c → within b' c.
Proof. destruct c as [[a r]| |]; simpl; lia || done. Qed.

Lemma within_bind {A B} (b b' : nat) (m : completion (A * jsstring))
    (f : A * jsstring → completion (B * jsstring)) :
  within b m →
  (∀ a r, (length r ≤ b)%nat → within b' (f (a, r))) →
  within b' (m ≫= f).
Proof. destruct m as [[a r]| |]; simpl; auto. Qed.

Lemma within_cons_char (b : nat) c k : within b k → within b (cons_char c k).
Proof. by destruct k as [[cs r]| |]. Qed.

Lemma skip_ws_length s : (length (skip_ws s) ≤ length s)%nat.
Proof.
  induction s as [|c s IH]; simpl; [done|].
  destruct (is_json_ws c); simpl; lia.
Qed.

Lemma parse_chars_within_le n s :
  (length s ≤ n)%nat → within (length s - 1) (parse_chars s).
Proof.
  revert s; induction n as [|n IH]; intros s Hn.
  { destruct s; [exact I | simpl in Hn; lia]. }
  destruct s as [|c r]; [exact I|]. simpl in Hn. simpl parse_chars.
  repeat case_match; subst; simpl in *; try exact I; try lia;
    apply within_cons_char;
    (eapply within_mono; [|apply IH]; simpl; lia).
Qed.

Lemma parse_chars_within s : within (length s - 1) (parse_chars s).
Proof. by apply (parse_chars_within_le (length s)). Qed.

Lemma take_digits_length s : (length (take_digits s).2 ≤ length s)%nat.
Proof.
  induction s as [|c s IH]; simpl; [done|].
  destruct (is_digit c); [|simpl; lia].
  destruct (take_digits s) as [ds r]. simpl in *. lia.
Qed.

Lemma parse_sign_length s : (length (parse_sign s).2 ≤ length s)%nat.
Proof.
  destruct s as [|c r]; simpl; [done|]. destruct (c =? 45)%N; simpl; lia.
Qed.

Lemma parse_int_digits_within s :
  within (length s - 1) (parse_int_digits s).
Proof.
  destruct s as [|d r]; [exact I|]. unfold parse_int_digits.
  destruct (d =? 48)%N; [simpl; lia|].
  destruct (is_digit d) eqn:Hd; [|exact I].
  pose proof (take_digits_length r) as Hr.
  simpl. rewrite Hd. destruct (take_digits r) as [ds r']. simpl in *. lia.
Qed.

Lemma parse_fraction_within s : within (length s) (parse_fraction s).
Proof.
  destruct s as [|c r]; [simpl; lia|]. unfold parse_fraction.
  destruct (c =? 46)%N; [|simpl; lia].
  pose proof (take_digits_length r) as Hr.
  destruct (take_digits r) as [[|d ds] r']; simpl in *; [done|lia].
Qed.

Lemma parse_exponent_within s : within (length s) (parse_exponent s).
Proof.
  destruct s as [|c r]; [simpl; lia|]. unfold parse_exponent.
  destruct (_ || _); [|simpl; lia].
  assert (∀ (neg : bool) r1, (length r1 ≤ length r)%nat →
    within (length (c :: r))
      match take_digits r1 with
      | ([], _) => Throws SyntaxError
      | (ds, r') =>
          Returns (if neg then - digits_value ds else digits_value ds, r')
      end) as Hcont.
  { intros neg r1 Hr1. pose proof (take_digits_length r1) as Hr.
    destruct (take_digits r1) as [[|d ds] r']; simpl in *; [done|lia]. }
  destruct r as [|sg r0]; [exact I|].
  destruct (sg =? 45)%N; [apply (Hcont true r0); simpl; lia|].
  destruct (sg =? 43)%N;
    [apply (Hcont false r0) | apply (Hcont false (sg :: r0))]; simpl; lia.
Qed.

Lemma parse_number_within s : within (length s - 1) (parse_number s).
Proof.
  unfold parse_number. pose proof (parse_sign_length s) as Hs.
  destruct (parse_sign s) as [neg s1]. simpl in Hs.
  eapply within_bind; [apply parse_int_digits_within|].
  intros ids r1 Hr1. simpl.
  eapply within_bind; [apply parse_fraction_within|].
  intros fds r2 Hr2. simpl.
  eapply within_bind; [apply parse_exponent_within|].
  intros e r3 Hr3. simpl. lia.
Qed.

Lemma strip_prefix_length p s r :
  strip_prefix p s = Some r → (length r + length p = length s)%nat.
Proof.
  revert s; induction p as [|a p IH]; intros s H.
  - destruct s; injection H as <-; simpl; lia.
  - destruct s as [|b s]; [done|]. simpl in *.
    destruct (a =? b)%N; [|done]. apply IH in H. lia.
Qed.

Lemma parse_literal_within s : within (length s - 1) (parse_literal s).
Proof.
  unfold parse_literal.
  repeat (case_match; [ match goal with
                        | H : strip_prefix _ _ = Some _ |- _ =>
                            apply strip_prefix_length in H; simpl in *; lia
                        end|]).
  exact I.
Qed.

(** With fuel above twice the length of the text, each of the three
    parsers stops by itself and leaves less than it was given. *)
Lemma parse_within n :
  (∀ s, (2 * length s < n)%nat → within (length s - 1) (parse_value n s))
  ∧ (∀ s, (2 * length s + 1 < n)%nat →
       within (length s - 1) (parse_elements n s))
  ∧ (∀ s, (2 * length s < n)%nat →
       within (length s - 1) (parse_members n s)).
Proof.
  induction n as [|n (IHv & IHe & IHm)]; [repeat split; intros; lia|].
  split; [|split]; intros s Hs.
  - rewrite parse_value_unfold. pose proof (skip_ws_length s) as Hws.
    destruct (skip_ws s) as [|c r]; [exact I|]. simpl in Hws.
    destruct (c =? 0x22)%N.
    { eapply within_bind; [apply parse_chars_within|].
      intros cs r' Hr'. simpl. lia. }
    destruct (c =? 0x5B)%N.
    { pose proof (skip_ws_length r) as Hr.
      destruct (skip_ws r) as [|c' r']; [exact I|]. simpl in Hr.
      destruct (c' =? 0x5D)%N; [simpl; lia|].
      eapply within_bind; [apply IHe; lia|].
      intros vs r2 Hr2. simpl. lia. }
    destruct (c =? 0x7B)%N.
    { pose proof (skip_ws_length r) as Hr.
      destruct (skip_ws r) as [|c' r']; [exact I|]. simpl in Hr.
      destruct (c' =? 0x7D)%N; [simpl; lia|].
      eapply within_bind; [apply IHm; lia|].
      intros ms r2 Hr2. simpl. lia. }
    destruct (_ || _).
    { eapply within_bind; [apply parse_number_within|].
      intros q r' Hr'. simpl in *. lia. }
    eapply within_mono; [|apply parse_literal_within]. simpl. lia.
  - rewrite parse_elements_unfold.
    eapply within_bind; [apply IHv; lia|].
    intros v r Hr. simpl. pose proof (skip_ws_length r) as Hws.
    destruct (skip_ws r) as [|c r']; [exact I|]. simpl in Hws.
    destruct (c =? 0x2C)%N.
    { eapply within_bind; [apply IHe; lia|].
      intros vs r2 Hr2. simpl. lia. }
    destruct (c =? 0x5D)%N; [simpl; lia|exact I].
  - rewrite parse_members_unfold. pose proof (skip_ws_length s) as Hws.
    destruct (skip_ws s) as [|q r0]; [exact I|]. simpl in Hws.
    destruct (q =? 0x22)%N; [|exact I].
    eapply within_bind; [apply parse_chars_within|].
    intros k r1 Hr1. simpl. pose proof (skip_ws_length r1) as Hws1.
    destruct (skip_ws r1) as [|c r2]; [exact I|]. simpl in Hws1.
    destruct (c =? 0x3A)%N; [|exact I].
    eapply within_bind; [apply IHv; lia|].
    intros v r3 Hr3. simpl. pose proof (skip_ws_length r3) as Hws3.
    destruct (skip_ws r3) as [|c' r4]; [exact I|]. simpl in Hws3.
    destruct (c' =? 0x2C)%N.
    { eapply within_bind; [apply IHm; lia|].
      intros ms r5 Hr5. simpl. lia. }
    destruct (c' =? 0x7D)%N; [simpl; lia|exact I].
Qed.

(** [JSON.parse] returns a value or throws. *)
Lemma JSON_parse_total text : JSON_parse text ≠ OutOfFuel.
Proof.
  unfold JSON_parse.
  destruct (parse_within (2 * length text + 1)) as (Hv & _ & _).
  specialize (Hv text ltac:(lia)).
  destruct (parse_value _ text) as [[v r]| |]; simpl; [|done..].
  by destruct (skip_ws r).
Qed.

(** White space alone is not a JSON text. *)
Lemma JSON_parse_blank text :
  Forall (λ c, is_json_ws c = true) text →
  JSON_parse text = Throws SyntaxError.
Proof.
  intros H. unfold JSON_parse.
  replace (2 * length text + 1)%nat with (S (2 * length text)) by lia.
  rewrite parse_value_unfold.
  assert (skip_ws text = []) as ->; [|reflexivity].
  induction H as [|c s Hc _ IH]; simpl; [done|]. by rewrite Hc.
Qed.

(** ** Loading at startup *)

Lemma load_todos_truncated : load_todos truncated_storage = Throws SyntaxError.
Proof. vm_compute. reflexivity. Qed.

(** C1, as the code has it.  Loading returns the empty array when the entry
    is absent and when it is the empty string.  Any other stored text goes
    to [JSON.parse]: what that returns is the initial collection, and when it
    throws, as on every text that is not JSON, the initialiser throws the
    same error.  Loading always ends in one of these two ways. *)
Theorem load_todos_cases (st : Storage) :
  load_todos st ≠ OutOfFuel
  ∧ (getItem (js "modern_todos") st = None →
     load_todos st = Returns (JArr []))
  ∧ (getItem (js "modern_todos") st = Some [] →
     load_todos st = Returns (JArr []))
  ∧ (∀ text, getItem (js "modern_todos") st = Some text → text ≠ [] →
       load_todos st = JSON_parse text)
  ∧ (∀ text e, getItem (js "modern_todos") st = Some text → text ≠ [] →
       JSON_parse text = Throws e → load_todos st = Throws e).
Proof.
  unfold load_todos.
  destruct (getItem (js "modern_todos") st) as [text|] eqn:E.
  - repeat split; try done.
    + destruct text; [done|apply JSON_parse_total].
    + by intros [= ->].
    + intros ? [= <-] Hne. by destruct text.
    + intros ? e [= <-] Hne <-. by destruct text.
  - repeat split; done.
Qed.

Lemma load_todos_cases_witness :
  load_todos ∅ = Returns (JArr [])
  ∧ load_todos {[ js "modern_todos" := [] ]} = Returns (JArr [])
  ∧ load_todos {[ js "modern_todos" := js "[ ]" ]} = JSON_parse (js "[ ]")
  ∧ load_todos truncated_storage = Throws SyntaxError.
Proof.
  split; [|split; [|split]].
  - destruct (load_todos_cases ∅) as (_ & Habsent & _).
    apply Habsent. reflexivity.
  - destruct (load_todos_cases {[ js "modern_todos" := [] ]})
      as (_ & _ & Hempty & _).
    apply Hempty. reflexivity.
  - destruct (load_todos_cases {[ js "modern_todos" := js "[ ]" ]})
      as (_ & _ & _ & Hparse & _).
    apply Hparse; [reflexivity | discriminate].
  - destruct (load_todos_cases truncated_storage) as (_ & _ & _ & _ & Hthrow).
    apply (Hthrow (js "[{")); [reflexivity | discriminate | reflexivity].
Defined.

(** C1, as stated, fails: on a stored text that is not JSON the
    initialiser throws instead of falling back to the empty collection. *)
Lemma load_todos_malformed_throws : ¬ load_falls_back truncated_storage.
Proof.
  unfold load_falls_back. intros H.
  rewrite load_todos_truncated in H.
  assert (Throws SyntaxError = Returns (JArr [])) as Habs; [|discriminate Habs].
  apply H. right. exists (js "[{"), SyntaxError. split; reflexivity.
Qed.

(** * Further properties of the store *)

(** ** How the operations compose *)

Lemma toggle_twice id (t : Todo.t) :
  let f := λ t, if Todo.id t =? id
                then Todo.with_completed (negb (Todo.completed t)) t
                else t in
  f (f t) = t.
Proof.
  destruct t as [i tx c p ca]. simpl.
  destruct (i =? id) eqn:E; simpl; rewrite E; [|done].
  unfold Todo.with_completed. simpl. by rewrite negb_involutive.
Qed.

Lemma toggleTodo_toggleTodo id prev :
  toggleTodo id (toggleTodo id prev) = prev.
Proof.
  unfold toggleTodo. rewrite <- list_fmap_compose.
  rewrite <- (list_fmap_id prev) at 2.
  apply list_fmap_ext. intros i t _. apply toggle_twice.
Qed.

(** X1. Toggling the same id twice gives the collection back, whatever
    the collection and whether or not the id occurs in it. *)
Theorem toggleTodo_involutive id prev :
  toggleTodo id (toggleTodo id prev) = prev.
Proof. apply toggleTodo_toggleTodo. Qed.

(** X2. Deleting the id of a task that was just added, when no earlier
    task has that id, undoes the addition. *)
Theorem deleteTodo_undoes_addTodo now iso text priority prev :
  trim text ≠ [] →
  (∀ t, t ∈ prev → Todo.id t ≠ now) →
  deleteTodo now (addTodo now iso text priority prev) = prev.
Proof.
  intros Htext Hfresh. rewrite addTodo_accepts by done.
  unfold deleteTodo. rewrite filter_cons_False.
  - by apply deleteTodo_no_match.
  - simpl. rewrite Z.eqb_refl. exact (λ x, x).
Qed.

Lemma deleteTodo_undoes_addTodo_witness :
  deleteTodo 7 (addTodo 7 (js "T") (js "tea") (js "low") [buy_milk; call_bob])
  = [buy_milk; call_bob].
Proof.
  apply (deleteTodo_undoes_addTodo 7 (js "T") (js "tea") (js "low")).
  - vm_compute. discriminate.
  - intros t Ht. apply list_elem_of_In in Ht. simpl in Ht.
    destruct Ht as [<-|[<-|[]]]; vm_compute; discriminate.
Defined.

Lemma deleteTodo_toggleTodo a b prev :
  deleteTodo a (toggleTodo b prev) = toggleTodo b (deleteTodo a prev).
Proof.
  unfold deleteTodo, toggleTodo.
  induction prev as [|t prev IH]; [done|].
  rewrite fmap_cons.
  assert (Todo.id (if Todo.id t =? b
                   then Todo.with_completed (negb (Todo.completed t)) t
                   else t) = Todo.id t) as Hid
    by (by destruct (Todo.id t =? b)).
  destruct (Todo.id t =? a) eqn:E.
  - rewrite !filter_cons_False by (simpl; rewrite ?Hid, E; exact (λ x, x)).
    exact IH.
  - rewrite !filter_cons_True by (simpl; rewrite ?Hid, E; exact I).
    rewrite fmap_cons. by rewrite IH.
Qed.

Lemma deleteTodo_filter a (P : Todo.t → bool) prev :
  deleteTodo a (filter (λ t, P t) prev)
  = filter (λ t, P t) (deleteTodo a prev).
Proof.
  unfold deleteTodo. rewrite !list_filter_filter.
  apply list_filter_iff. intros t. tauto.
Qed.

(** X3. Deleting an id commutes with every step that is not an addition
    under that very id: it does not matter whether the task is deleted
    before or after another task is added, toggled, deleted or the
    completed ones are cleared. *)
Theorem deleteTodo_step_commute a o prev :
  (∀ now iso text priority, o = Add now iso text priority → now ≠ a) →
  deleteTodo a (step prev o) = step (deleteTodo a prev) o.
Proof.
  intros Ha. destruct o as [now iso text p|b|b|]; simpl.
  - unfold addTodo. destruct (truthy (trim text)); simpl; [|done].
    unfold deleteTodo at 1. rewrite filter_cons_True; [done|].
    simpl. apply negb_prop_intro. intros Hab%Is_true_eq_true%Z.eqb_eq.
    by apply (Ha now iso text p).
  - apply deleteTodo_toggleTodo.
  - apply (deleteTodo_filter a (λ t, negb (Todo.id t =? b))).
  - apply (deleteTodo_filter a (λ t, negb (Todo.completed t))).
Qed.

Lemma deleteTodo_step_commute_witness :
  deleteTodo 1700000000000
    (step [buy_milk; call_bob] (Add 7 (js "T") (js "tea") (js "low")))
  = step (deleteTodo 1700000000000 [buy_milk; call_bob])
         (Add 7 (js "T") (js "tea") (js "low")).
Proof.
  apply (deleteTodo_step_commute 1700000000000
           (Add 7 (js "T") (js "tea") (js "low")) [buy_milk; call_bob]).
  intros now iso text priority [= <- _ _ _]. discriminate.
Defined.

(** X4. Deleting and clearing are idempotent: a second [deleteTodo] of the
    same id and a second [clearCompleted] change nothing. *)
Theorem deleteTodo_clearCompleted_idempotent id prev :
  deleteTodo id (deleteTodo id prev) = deleteTodo id prev
  ∧ clearCompleted (clearCompleted prev) = clearCompleted prev.
Proof.
  split.
  - unfold deleteTodo. apply list_filter_filter_l. tauto.
  - unfold clearCompleted. apply list_filter_filter_l. tauto.
Qed.

(** ** The views and the footer *)

Lemma filter_active_complement (todos : list Todo.t) :
  filter (λ t, negb (Todo.completed t)) todos
  = filter (λ t, ¬ Todo.completed t) todos.
Proof.
  apply list_filter_iff. intros t. destruct (Todo.completed t); simpl; tauto.
Qed.

Lemma clearCompleted_none_completed todos :
  filter (λ t, Todo.completed t) (clearCompleted todos) = [].
Proof.
  unfold clearCompleted. rewrite list_filter_filter.
  induction todos as [|t todos IH]; [done|].
  rewrite filter_cons_False; [done|].
  destruct (Todo.completed t); simpl; tauto.
Qed.

(** X5. The views "completed" and "active" split the collection: together
    they hold every task exactly once, the view "active" is what
    [clearCompleted] would leave, and after [clearCompleted] the view
    "completed" is empty while the view "active" is everything. *)
Theorem filteredTodos_partition todos :
  filteredTodos todos (js "completed") ++ filteredTodos todos (js "active")
    ≡ₚ todos
  ∧ filteredTodos todos (js "active") = clearCompleted todos
  ∧ filteredTodos (clearCompleted todos) (js "completed") = []
  ∧ filteredTodos (clearCompleted todos) (js "active") = clearCompleted todos.
Proof.
  change (filteredTodos todos (js "active"))
    with (filter (λ t, negb (Todo.completed t)) todos).
  change (filteredTodos todos (js "completed"))
    with (filter (λ t, Todo.completed t) todos).
  change (filteredTodos (clearCompleted todos) (js "completed"))
    with (filter (λ t, Todo.completed t) (clearCompleted todos)).
  change (filteredTodos (clearCompleted todos) (js "active"))
    with (clearCompleted (clearCompleted todos)).
  split; [|split; [done|split]].
  - rewrite filter_active_complement. apply filter_app_complement.
  - apply clearCompleted_none_completed.
  - unfold clearCompleted. apply list_filter_filter_l. tauto.
Qed.

Lemma footer_props_split todos :
  (footer_props todos).1
  = ((footer_props todos).2 + length (clearCompleted todos))%nat.
Proof.
  unfold footer_props, clearCompleted. simpl.
  rewrite filter_active_complement, <- length_app.
  apply Permutation_length. symmetry. apply filter_app_complement.
Qed.

(** X6. In the footer the number of completed tasks never exceeds the
    total, their difference is the number of tasks that [clearCompleted]
    keeps, and after [clearCompleted] the footer shows that difference as
    total and zero as completed. *)
Theorem footer_props_counts todos :
  ((footer_props todos).2 ≤ (footer_props todos).1)%nat
  ∧ length (clearCompleted todos)
    = ((footer_props todos).1 - (footer_props todos).2)%nat
  ∧ footer_props (clearCompleted todos)
    = (((footer_props todos).1 - (footer_props todos).2)%nat, 0%nat).
Proof.
  pose proof (footer_props_split todos) as Hsplit.
  split; [lia|]. split; [lia|].
  unfold footer_props at 1.
  rewrite clearCompleted_none_completed. simpl length at 2. f_equal. lia.
Qed.

Lemma toggleTodo_no_match id prev :
  (∀ t, t ∈ prev → Todo.id t ≠ id) → toggleTodo id prev = prev.
Proof.
  intros Hno. unfold toggleTodo.
  rewrite <- (list_fmap_id prev) at 2.
  apply list_fmap_ext. intros i t Ht. simpl.
  apply list_elem_of_lookup_2 in Ht.
  destruct (Z.eqb_spec (Todo.id t) id); [|done]. by destruct (Hno t).
Qed.

Lemma toggleTodo_unique id l1 t l2 :
  unique_ids (l1 ++ t :: l2) → Todo.id t = id →
  toggleTodo id (l1 ++ t :: l2)
  = l1 ++ Todo.with_completed (negb (Todo.completed t)) t :: l2.
Proof.
  unfold unique_ids. intros Hnd Hid.
  rewrite fmap_app, fmap_cons in Hnd.
  apply NoDup_app in Hnd as (_ & Hl1 & Hnd).
  apply NoDup_cons in Hnd as [Hl2 _].
  unfold toggleTodo. rewrite fmap_app, fmap_cons.
  rewrite (proj2 (Z.eqb_eq _ _) Hid).
  fold (toggleTodo id l1). fold (toggleTodo id l2).
  rewrite !toggleTodo_no_match; [done|..].
  - intros x Hx Hxid. apply Hl2. rewrite Hid, <- Hxid.
    by apply list_elem_of_fmap_2.
  - intros x Hx Hxid. apply (Hl1 (Todo.id x)).
    + by apply list_elem_of_fmap_2.
    + rewrite Hxid, <- Hid. by left.
Qed.

(** X7. When the ids of the collection are pairwise different, toggling
    the id of a task keeps the total of the footer and moves its count of
    completed tasks by exactly one: up when the task was not completed,
    down when it was. *)
Theorem footer_props_toggleTodo id l1 t l2 :
  unique_ids (l1 ++ t :: l2) → Todo.id t = id →
  (footer_props (toggleTodo id (l1 ++ t :: l2))).1
  = (footer_props (l1 ++ t :: l2)).1
  ∧ (if Todo.completed t
     then S (footer_props (toggleTodo id (l1 ++ t :: l2))).2
          = (footer_props (l1 ++ t :: l2)).2
     else (footer_props (toggleTodo id (l1 ++ t :: l2))).2
          = S (footer_props (l1 ++ t :: l2)).2).
Proof.
  intros Hnd Hid. rewrite toggleTodo_unique by done.
  unfold footer_props. simpl. rewrite !filter_app, !length_app.
  split; [done|].
  destruct (Todo.completed t) eqn:E.
  - rewrite filter_cons_False by (simpl; exact (λ x, x)).
    rewrite filter_cons_True by (simpl; by rewrite E). simpl. lia.
  - rewrite filter_cons_True by (simpl; exact I).
    rewrite filter_cons_False by (simpl; rewrite E; exact (λ x, x)).
    simpl. lia.
Qed.

Lemma footer_props_toggleTodo_witness :
  (footer_props (toggleTodo 1700000000001 ([buy_milk] ++ call_bob :: []))).1
  = (footer_props ([buy_milk] ++ call_bob :: [])).1
  ∧ S (footer_props (toggleTodo 1700000000001
                       ([buy_milk] ++ call_bob :: []))).2
    = (footer_props ([buy_milk] ++ call_bob :: [])).2.
Proof.
  apply (footer_props_toggleTodo 1700000000001 [buy_milk] call_bob []).
  - unfold unique_ids. vm_compute. repeat constructor; set_solver.
  - reflexivity.
Defined.

(** ** Where the tasks of a run come from *)

Lemma created_by_mono ops ops' t :
  ops ⊆ ops' → created_by ops t → created_by ops' t.
Proof.
  intros Hsub (now & iso & text & p & Hin & Htext & Ht).
  exists now, iso, text, p. auto.
Qed.

Lemma created_by_completed ops t c :
  created_by ops t → created_by ops (Todo.with_completed c t).
Proof.
  intros (now & iso & text & p & Hin & Htext & Ht).
  exists now, iso, text, p. split; [done|]. split; [done|].
  rewrite Ht. reflexivity.
Qed.

Lemma step_created_by ops o prev :
  (∀ t, t ∈ prev → created_by ops t) →
  ∀ t, t ∈ step prev o → created_by (ops ++ [o]) t.
Proof.
  intros Hprev t Ht.
  assert (∀ x, x ∈ prev → created_by (ops ++ [o]) x) as Hold.
  { intros x Hx. eapply created_by_mono; [|by apply Hprev]. set_solver. }
  destruct o as [now iso text p|id|id|]; simpl in Ht.
  - unfold addTodo in Ht. destruct (truthy (trim text)) eqn:E; simpl in Ht;
      [|by apply Hold].
    apply elem_of_cons in Ht as [->|Ht]; [|by apply Hold].
    exists now, iso, text, p. split; [set_solver|]. split; [|done].
    intros Hnil. by rewrite Hnil in E.
  - unfold toggleTodo in Ht.
    apply list_elem_of_fmap in Ht as (x & -> & Hx).
    destruct (Todo.id x =? id); [|by apply Hold].
    by apply created_by_completed, Hold.
  - eapply Hold, (selects_elem_of _ _ _ (deleteTodo_selects id prev)), Ht.
  - eapply Hold, (selects_elem_of _ _ _ (clearCompleted_selects prev)), Ht.
Qed.

(** X8. Every task of a collection reached from the empty one carries the
    id, the text, the priority and the creation time of an accepted [Add]
    of the run: no operation invents a task or rewrites any field other
    than [completed], and no task has a blank text. *)
Theorem run_created_by ops t :
  t ∈ run ops → created_by ops t.
Proof.
  revert t. induction ops as [|o ops IH] using rev_ind; intros t Ht.
  - by apply elem_of_nil in Ht.
  - unfold run in *. rewrite foldl_snoc in Ht.
    by eapply step_created_by.
Qed.

Lemma run_created_by_witness :
  created_by
    [Add 1 (js "T1") (js "Buy milk") (js "low"); Toggle 1]
    (Todo.mk 1 (js "Buy milk") true (js "low") (js "T1")).
Proof.
  apply (run_created_by
           [Add 1 (js "T1") (js "Buy milk") (js "low"); Toggle 1]).
  vm_compute. left.
Defined.

(** ** Newest first *)

Lemma filter_ids_sorted (P : Todo.t → bool) prev :
  StronglySorted Z.gt (Todo.id <$> prev) →
  StronglySorted Z.gt (Todo.id <$> filter (λ t, P t) prev)
  ∧ Todo.id <$> filter (λ t, P t) prev ⊆ Todo.id <$> prev.
Proof.
  intros Hs. pose proof (selects_ids _ _ _ (selects_filter P prev)) as Hsub.
  split; [|by apply sublist_subseteq].
  revert Hs. induction Hsub; intros Hs; [done|..].
  - apply StronglySorted_inv in Hs as [Hs Hall]. constructor; [auto|].
    eapply Forall_forall. intros y Hy.
    eapply Forall_forall in Hall; [exact Hall|].
    by eapply sublist_subseteq.
  - apply StronglySorted_inv in Hs as [Hs _]. auto.
Qed.

Lemma foldl_step_sorted ops prev :
  StronglySorted Z.gt (Todo.id <$> prev) →
  StronglySorted Z.lt (accepted_clocks ops) →
  (∀ i c, i ∈ (Todo.id <$> prev) → c ∈ accepted_clocks ops → i < c) →
  StronglySorted Z.gt (Todo.id <$> foldl step prev ops).
Proof.
  revert prev; induction ops as [|o ops IH]; intros prev Hs Hc Hlt; [done|].
  simpl foldl.
  pose proof (λ P, filter_ids_sorted P prev Hs) as Hfilter.
  destruct o as [now iso text p|id|id|]; simpl step.
  - unfold addTodo. simpl accepted_clocks in *.
    destruct (truthy (trim text)); simpl negb; cbv iota.
    + apply StronglySorted_inv in Hc as [Hc Hall]. apply IH; [|done|].
      * rewrite fmap_cons. constructor; [done|].
        apply Forall_forall. intros i Hi.
        apply Z.lt_gt, Hlt; [done|left].
      * intros i c Hi Hcin. rewrite fmap_cons in Hi.
        apply elem_of_cons in Hi as [->|Hi].
        -- eapply Forall_forall in Hall; [exact Hall|done].
        -- apply Hlt; [done|by right].
    + by apply IH.
  - apply IH; rewrite ?toggleTodo_ids; done.
  - destruct (Hfilter (λ t, negb (Todo.id t =? id))) as [Hs' Hsub].
    apply IH; [done..|]. intros i c Hi. apply Hlt. by apply Hsub.
  - destruct (Hfilter (λ t, negb (Todo.completed t))) as [Hs' Hsub].
    apply IH; [done..|]. intros i c Hi. apply Hlt. by apply Hsub.
Qed.

(** X9. When the clock values read by the accepted [Add]s of a run increase
    strictly, the ids of the collection decrease strictly from the front:
    the newest task is first, whatever was toggled, deleted or cleared in
    between. *)
Theorem run_newest_first ops :
  StronglySorted Z.lt (accepted_clocks ops) →
  StronglySorted Z.gt (Todo.id <$> run ops).
Proof.
  intros Hc. apply foldl_step_sorted; [constructor|done|].
  intros i c Hi. by apply elem_of_nil in Hi.
Qed.

Lemma run_newest_first_witness :
  StronglySorted Z.gt
    (Todo.id <$> run [Add 1 (js "T1") (js "Buy milk") (js "low");
                      Add 2 (js "T2") (js "  ") (js "low");
                      Add 2 (js "T2") (js "Call Bob") (js "high");
                      Toggle 1;
                      Add 5 (js "T5") (js "Tea") (js "medium");
                      Delete 2]).
Proof.
  apply run_newest_first. vm_compute.
  repeat (constructor; [|repeat constructor]). constructor.
Defined.

(** * Further properties of the storage *)

Lemma JSON_parse_boolean b :
  JSON_parse (boolean_to_string b) = Returns (JBool b).
Proof. by destruct b. Qed.

Lemma storage_keys_differ : js "modern_todos" ≠ js "theme_mode".
Proof. discriminate. Qed.

Lemma load_theme_persist_todos (todos : list Todo.t) (st : Storage) :
  load_theme (persist_todos todos st) = load_theme st.
Proof.
  unfold load_theme, persist_todos, getItem, setItem.
  by rewrite lookup_insert_ne by apply storage_keys_differ.
Qed.

Lemma load_todos_persist_theme (dark : bool) (st : Storage) :
  load_todos (persist_theme dark st) = load_todos st.
Proof.
  unfold load_todos, persist_theme, getItem, setItem.
  rewrite lookup_insert_ne; [done|]. intros H. by apply storage_keys_differ.
Qed.

Lemma load_theme_persist_theme (dark : bool) (st : Storage) :
  load_theme (persist_theme dark st) = Returns (JBool dark).
Proof.
  unfold load_theme, persist_theme, getItem, setItem.
  rewrite lookup_insert_eq.
  replace (truthy (boolean_to_string dark)) with true by (by destruct dark).
  apply JSON_parse_boolean.
Qed.

(** X10. Writing the theme and loading it again returns the same boolean,
    whatever else the storage holds. *)
Theorem theme_roundtrip (dark : bool) (st : Storage) :
  load_theme (persist_theme dark st) = Returns (JBool dark).
Proof. apply load_theme_persist_theme. Qed.

(** X11. The two entries do not interfere: writing the theme leaves what
    loading the collection returns unchanged, and writing the collection
    leaves what loading the theme returns unchanged. *)
Theorem storage_entries_independent (todos : list Todo.t) (dark : bool) (st : Storage) :
  load_todos (persist_theme dark st) = load_todos st
  ∧ load_theme (persist_todos todos st) = load_theme st.
Proof.
  split; [apply load_todos_persist_theme | apply load_theme_persist_todos].
Qed.

(** X12. Only the empty string counts as an absent entry: a stored text
    that is not empty but consists of JSON white space makes the loader of
    its key throw a [SyntaxError]. *)
Theorem load_blank_text_throws (st : Storage) (text : jsstring) :
  text ≠ [] → Forall (λ c, is_json_ws c = true) text →
  (getItem (js "modern_todos") st = Some text →
   load_todos st = Throws SyntaxError)
  ∧ (getItem (js "theme_mode") st = Some text →
     load_theme st = Throws SyntaxError).
Proof.
  intros Hne Hws. pose proof (JSON_parse_blank text Hws) as Hp.
  unfold load_todos, load_theme.
  split; intros ->; by destruct text.
Qed.

Lemma load_blank_text_throws_witness :
  load_todos {[ js "modern_todos" := js "  " ]} = Throws SyntaxError.
Proof.
  apply (load_blank_text_throws {[ js "modern_todos" := js "  " ]} (js "  "));
    [discriminate | by repeat constructor | reflexivity].
Defined.

(** X13. Different collections are stored as different texts: the text
    that [JSON.stringify] writes determines the collection. *)
Theorem JSON_stringify_injective todos1 todos2 :
  JSON_stringify todos1 = JSON_stringify todos2 → todos1 = todos2.
Proof.
  intros H.
  assert (json_of_todos todos1 = json_of_todos todos2) as Hv.
  { pose proof (JSON_parse_stringify todos1) as H1.
    rewrite H, JSON_parse_stringify in H1. congruence. }
  pose proof (todos_of_json_of_todos todos1) as H2.
  rewrite Hv, todos_of_json_of_todos in H2. congruence.
Qed.

Lemma JSON_stringify_injective_witness : [buy_milk] = [buy_milk].
Proof. apply (JSON_stringify_injective [buy_milk] [buy_milk]). reflexivity. Defined.

(** ** Rendering what was loaded *)

Lemma completed_of_TypeError t : completed_of t = TypeError ↔ t = JNull.
Proof. by destruct t. Qed.

Lemma count_completed_TypeError vs :
  count_completed vs = TypeError ↔ JNull ∈ vs.
Proof.
  induction vs as [|t vs IH]; simpl.
  - split; [done|]. by intros ?%elem_of_nil.
  - rewrite elem_of_cons, <- IH.
    destruct (completed_of t) as [b|] eqn:E.
    + assert (t ≠ JNull) by (intros ->; discriminate).
      destruct (count_completed vs); naive_solver.
    + apply completed_of_TypeError in E. naive_solver.
Qed.

(** X14. Evaluating the props of the footer, [todos.length] and
    [todos.filter((t) => t.completed).length], on a loaded value throws a
    [TypeError] exactly when the value is not an array or is an array with
    [null] among its elements. *)
Theorem footer_props_json_TypeError v :
  footer_props_json v = TypeError
  ↔ (∀ vs, v ≠ JArr vs) ∨ (∃ vs, v = JArr vs ∧ JNull ∈ vs).
Proof.
  destruct v as [|b|q|s|vs|ms]; simpl;
    try (split; [by left | done]).
  pose proof (count_completed_TypeError vs) as Hc.
  destruct (count_completed vs) as [n|].
  - split; [done|]. intros [Hno|(vs' & [= <-] & Hin)].
    + by destruct (Hno vs).
    + by apply Hc in Hin.
  - split; [|done]. intros _. right. exists vs. split; [done|]. by apply Hc.
Qed.

Lemma count_completed_todos todos :
  count_completed (json_of_todo <$> todos)
  = Rendered (length (filter (λ t, Todo.completed t) todos)).
Proof.
  induction todos as [|t todos IH]; [done|].
  rewrite fmap_cons. simpl count_completed. rewrite IH.
  change (completed_of (json_of_todo t)) with (Rendered (Todo.completed t)).
  cbv iota. destruct (Todo.completed t) eqn:E.
  - rewrite filter_cons_True by (simpl; by rewrite E). done.
  - rewrite filter_cons_False by (simpl; rewrite E; exact (λ x, x)). done.
Qed.

(** X15. After a reload the footer shows the counts of the collection that
    was written: what the loader returns for a stored collection renders to
    the total and the number of completed tasks of that collection. *)
Theorem footer_props_after_reload (todos : list Todo.t) (st : Storage) :
  ∃ v, load_todos (persist_todos todos st) = Returns v
       ∧ footer_props_json v = Rendered (footer_props todos).
Proof.
  exists (json_of_todos todos). split.
  - by rewrite load_persist, JSON_parse_stringify.
  - unfold footer_props_json, json_of_todos.
    rewrite count_completed_todos, length_fmap. reflexivity.
Qed.

(** X16. When every task that carries the id is not completed, toggling
    the id takes exactly those tasks out of the view "active" and leaves the
    rest of that view as it was. *)
Theorem toggleTodo_leaves_active_view id todos :
  (∀ t, t ∈ todos → Todo.id t = id → Todo.completed t = false) →
  filteredTodos (toggleTodo id todos) (js "active")
  = deleteTodo id (filteredTodos todos (js "active")).
Proof.
  change (filteredTodos (toggleTodo id todos) (js "active"))
    with (clearCompleted (toggleTodo id todos)).
  change (filteredTodos todos (js "active")) with (clearCompleted todos).
  unfold clearCompleted, deleteTodo, toggleTodo.
  induction todos as [|t todos IH]; intros Hact; [done|].
  assert (∀ x, x ∈ todos → Todo.id x = id → Todo.completed x = false)
    as Hrest by (intros x Hx; apply Hact; by right).
  rewrite fmap_cons. destruct (Z.eqb_spec (Todo.id t) id) as [Hid|Hid].
  - rewrite (Hact t (list_elem_of_here _ _) Hid).
    rewrite filter_cons_False by (simpl; exact (λ x, x)).
    rewrite (filter_cons_True _ t)
      by (simpl; by rewrite (Hact t (list_elem_of_here _ _) Hid)).
    rewrite filter_cons_False
      by (simpl; rewrite (proj2 (Z.eqb_eq _ _) Hid); exact (λ x, x)).
    by apply IH.
  - destruct (Todo.completed t) eqn:E.
    + rewrite !filter_cons_False by (simpl; rewrite E; exact (λ x, x)).
      by apply IH.
    + rewrite !filter_cons_True by (simpl; by rewrite E).
      rewrite filter_cons_True
        by (simpl; by rewrite (proj2 (Z.eqb_neq _ _) Hid)).
      f_equal. by apply IH.
Qed.

Lemma toggleTodo_leaves_active_view_witness :
  filteredTodos (toggleTodo 1700000000000 [buy_milk; call_bob]) (js "active")
  = deleteTodo 1700000000000
      (filteredTodos [buy_milk; call_bob] (js "active")).
Proof.
  apply (toggleTodo_leaves_active_view 1700000000000 [buy_milk; call_bob]).
  intros t Ht. apply list_elem_of_In in Ht. simpl in Ht.
  destruct Ht as [<-|[<-|[]]]; [reflexivity | discriminate].
Defined.

(** * Properties of the page *)

Lemma session_invariant (P : App.t * Storage → Prop) (s : App.t)
    (st : Storage) (events : list event) :
  P (mount s st) → (∀ e c, P c → P (dispatch e c)) →
  P (session s st events).
Proof.
  intros Hmount Hstep. unfold session.
  induction events as [|e events IH] using rev_ind; [done|].
  rewrite foldl_snoc. by apply Hstep.
Qed.

Lemma dispatch_filter e c :
  App.filter c.1 ∈ filters → App.filter (dispatch e c).1 ∈ filters.
Proof.
  destruct c as [s st]. intros Hf.
  destruct e as [v|o|now iso|i|i|i| |]; simpl in *; try done.
  - by destruct (truthy (trim (App.text s))).
  - destruct (filters !! i) as [f|] eqn:E; simpl; [|done].
    by eapply list_elem_of_lookup_2.
  - by destruct (filteredTodos (App.todos s) (App.filter s) !! i).
  - by destruct (filteredTodos (App.todos s) (App.filter s) !! i).
Qed.

(** X17. Whatever happens on the page, the current filter is one of
    "all", "active" and "completed": the page starts with "all" and only the
    three buttons of the filter bar set it. *)
Theorem session_filter (todos : list Todo.t) (dark : bool) (st : Storage)
    events :
  App.filter (session (initial todos dark) st events).1 ∈ filters.
Proof.
  apply (session_invariant (λ c, App.filter c.1 ∈ filters)).
  - simpl. unfold filters. left.
  - apply dispatch_filter.
Qed.

Lemma synced_set_todos (todos' : list Todo.t) (s : App.t) (st : Storage) :
  load_theme st = Returns (JBool (App.dark s)) →
  synced (set_todos todos' s st).
Proof.
  intros Ht. split; simpl.
  - by rewrite load_persist, JSON_parse_stringify.
  - by rewrite load_theme_persist_todos.
Qed.

Lemma dispatch_synced e c : synced c → synced (dispatch e c).
Proof.
  destruct c as [s st]. intros [Htodos Htheme]. simpl in Htodos, Htheme.
  destruct e as [v|o|now iso|i|i|i| |]; simpl; try (by split).
  - destruct (truthy (trim (App.text s))); [|by split].
    by apply synced_set_todos.
  - by destruct (filters !! i).
  - destruct (filteredTodos (App.todos s) (App.filter s) !! i); [|by split].
    by apply synced_set_todos.
  - destruct (filteredTodos (App.todos s) (App.filter s) !! i); [|by split].
    by apply synced_set_todos.
  - by apply synced_set_todos.
  - split; simpl.
    + by rewrite load_todos_persist_theme.
    + apply load_theme_persist_theme.
Qed.

(** X18. After mounting and after every event the storage agrees with the
    page: loading the collection returns the array of the tasks on the page
    and loading the theme returns the theme of the page, so a restart shows
    what was there. *)
Theorem session_synced (s : App.t) (st : Storage) (events : list event) :
  synced (session s st events).
Proof.
  apply session_invariant; [|apply dispatch_synced].
  split; simpl.
  - rewrite load_todos_persist_theme.
    by rewrite load_persist, JSON_parse_stringify.
  - apply load_theme_persist_theme.
Qed.

Lemma from_form_with_completed c t :
  from_form t → from_form (Todo.with_completed c t).
Proof. by destruct t. Qed.

Lemma dispatch_from_form e c :
  Forall from_form (App.todos c.1) ∧ (∃ o, App.priority c.1 = option_value o) →
  Forall from_form (App.todos (dispatch e c).1)
  ∧ (∃ o, App.priority (dispatch e c).1 = option_value o).
Proof.
  destruct c as [s st]. intros [Hall Hprio]. simpl in Hall, Hprio.
  assert (∀ id, Forall from_form (toggleTodo id (App.todos s))) as Htoggle.
  { intros id. unfold toggleTodo. apply Forall_fmap.
    eapply Forall_impl; [exact Hall|]. intros t Ht. simpl.
    destruct (Todo.id t =? id); [by apply from_form_with_completed|done]. }
  assert (∀ P : Todo.t → bool,
            Forall from_form (filter (λ t, P t) (App.todos s))) as Hfilter.
  { intros P. apply Forall_forall. intros t [_ Ht]%list_elem_of_filter.
    eapply Forall_forall in Hall; [exact Hall|done]. }
  destruct e as [v|o|now iso|i|i|i| |]; simpl; try (by split).
  - split; [done|]. by exists o.
  - destruct (truthy (trim (App.text s))) eqn:E; simpl; [|by split].
    split; [|done]. unfold addTodo. rewrite E. simpl.
    constructor; [|done]. split; [|done].
    simpl. intros Hnil. by rewrite Hnil in E.
  - destruct (filters !! i); simpl; by split.
  - destruct (filteredTodos (App.todos s) (App.filter s) !! i); simpl;
      by split.
  - destruct (filteredTodos (App.todos s) (App.filter s) !! i); simpl;
      split; try done. apply Hfilter.
  - split; [apply Hfilter|done].
Qed.

(** X19. Every task that the page creates from an empty collection has a
    text that is not blank and a priority that is one of "low", "medium"
    and "high", and keeps them under every later event. *)
Theorem session_from_form (dark : bool) (st : Storage) events :
  Forall from_form (App.todos (session (initial [] dark) st events).1).
Proof.
  apply (session_invariant
           (λ c, Forall from_form (App.todos c.1)
                 ∧ ∃ o, App.priority c.1 = option_value o)).
  - split; [constructor|]. by exists Medium.
  - apply dispatch_from_form.
Qed.

(** X20. Submitting clears the text field, so a second submit right after
    the first adds nothing and writes nothing, whatever the clock shows. *)
Theorem submit_twice now iso now' iso' c :
  dispatch (Submit now' iso') (dispatch (Submit now iso) c)
  = dispatch (Submit now iso) c.
Proof.
  destruct c as [s st]. simpl.
  destruct (truthy (trim (App.text s))); reflexivity.
Qed.

(** X21. Under the filter "all", clicking the same item twice restores
    the collection, and the storage then holds what a single write of that
    collection gives. *)
Theorem click_todo_twice (s : App.t) (st : Storage) (i : nat) :
  App.filter s = js "all" →
  is_Some (App.todos s !! i) →
  dispatch (ClickTodo i) (dispatch (ClickTodo i) (s, st))
  = set_todos (App.todos s) s st.
Proof.
  intros Hall [todo Hi].
  assert (∀ l, filteredTodos l (js "all") = l) as Hview by done.
  cbn [dispatch]. rewrite Hall, Hview, Hi.
  cbn [set_todos dispatch App.todos App.filter].
  rewrite Hall, Hview, toggleTodo_lookup, Hi. simpl.
  assert (Todo.id (if Todo.id todo =? Todo.id todo
                   then Todo.with_completed (negb (Todo.completed todo)) todo
                   else todo) = Todo.id todo) as ->
    by (by destruct (Todo.id todo =? Todo.id todo)).
  rewrite toggleTodo_toggleTodo.
  unfold set_todos, persist_todos, setItem.
  cbn [App.todos App.filter App.dark App.text App.priority].
  by rewrite insert_insert_eq, Hall.
Qed.

Lemma click_todo_twice_witness :
  dispatch (ClickTodo 1)
    (dispatch (ClickTodo 1) (initial [buy_milk; call_bob] false, ∅))
  = set_todos [buy_milk; call_bob] (initial [buy_milk; call_bob] false) ∅.
Proof.
  apply (click_todo_twice (initial [buy_milk; call_bob] false) ∅ 1);
    [reflexivity | by eexists].
Defined.
